(** * Door-to-door routing core: a shallow embedding of the JavaScript sources

    The development follows the source files:
    - [Js]        : the fragment of JavaScript semantics the code relies on
                    (numbers with NaN, identifiers that may be null or
                    undefined, exceptions);
    - [Types]     : the records of routing/types.js and of the schema;
    - [Cost]      : routing/generalizedCost.js;
    - [Transfers] : routing/transfers.js;
    - [Graph]     : routing/graph.js;
    - [Search]    : routing/search.js;
    - [ApiCache]  : routing/apiCache.js;
    - [Place]     : routing/placeNormalization.js.

    Conventions of the model.
    - JavaScript numbers are real numbers extended with NaN: rounding,
      overflow and the infinities of binary64 are abstracted.  The
      coordinates of a node, the prices and the numeric search parameters
      are finite; the two budgets ([maxExpansions], [timeoutMs]) are
      integers.  Because rounding is abstracted, the model cannot decide
      a comparison between two computed numbers that are equal, or closer
      than the rounding error, as reals.  The claims are therefore stated
      through the formula in the order the code evaluates it, its sign,
      its value where the operands make the computation exact, and
      comparisons that hold with a margin.
    - ISO-8601 timestamps are kept as the epoch milliseconds [Date.parse]
      gives for them.
    - An object is a record with one field per property the code reads; a
      property the object does not have reads as [undefined] ([None],
      [IUndefined]).
    - The wall clock and [Math.random] are oracles indexed by the number of
      readings made so far; the tables of the store are lists of rows, and a
      failure of the store while the graph is loaded is not modelled.  The
      API cache has its own store, which can fail in two ways: a statement
      fails, or the database cannot be opened.
    - A function that can throw returns [exn]; the search loop takes fuel
      and returns [None] only when the fuel runs out. *)

From Stdlib Require Import Reals Lra Lia ZArith List String Ascii.
From stdpp Require Import base option list gmap countable strings pretty.
From Stdlib Require Import Sorting.Sorted Structures.OrderedTypeEx.

(* ===================================================================== *)
(** ** JavaScript fragment *)
(* ===================================================================== *)

Module Js.

(** A number: a finite real or NaN. *)
Inductive num : Type :=
| Fin (r : R)
| NaN.

(** ToNumber of a property that may be absent: [undefined] becomes NaN. *)
Definition to_num (p : option R) : num :=
  match p with
  | Some r => Fin r
  | None => NaN
  end.

Definition nadd (a b : num) : num :=
  match a, b with
  | Fin x, Fin y => Fin (x + y)
  | _, _ => NaN
  end.

Definition nsub (a b : num) : num :=
  match a, b with
  | Fin x, Fin y => Fin (x - y)
  | _, _ => NaN
  end.

Definition nmul (a b : num) : num :=
  match a, b with
  | Fin x, Fin y => Fin (x * y)
  | _, _ => NaN
  end.

(** Division; every divisor in the sources is a non-zero constant. *)
Definition ndiv (a b : num) : num :=
  match a, b with
  | Fin x, Fin y => Fin (x / y)
  | _, _ => NaN
  end.

(** [Math.sqrt]; the sources only take roots of sums of squares. *)
Definition nsqrt (a : num) : num :=
  match a with
  | Fin x => Fin (sqrt x)
  | NaN => NaN
  end.

Definition Rgeb (x y : R) : bool := if Rge_dec x y then true else false.
Definition Rgtb (x y : R) : bool := if Rgt_dec x y then true else false.
Definition Rleb (x y : R) : bool := if Rle_dec x y then true else false.
Definition Rltb (x y : R) : bool := if Rlt_dec x y then true else false.

(** Comparisons: false as soon as one side is NaN. *)
Definition nge (a b : num) : bool :=
  match a, b with
  | Fin x, Fin y => Rgeb x y
  | _, _ => false
  end.

Definition ngt (a b : num) : bool :=
  match a, b with
  | Fin x, Fin y => Rgtb x y
  | _, _ => false
  end.

Definition nle (a b : num) : bool :=
  match a, b with
  | Fin x, Fin y => Rleb x y
  | _, _ => false
  end.

Definition nlt (a b : num) : bool :=
  match a, b with
  | Fin x, Fin y => Rltb x y
  | _, _ => false
  end.

(** [Math.floor] and [Math.round] on finite numbers. *)
Definition floor (x : R) : Z := (up x - 1)%Z.
Definition round (x : R) : Z := floor (x + / 2).

(** An identifier as the code meets it: a number, [null] or [undefined]. *)
Inductive idval : Type :=
| IUndefined
| INull
| INum (z : Z).

#[global] Instance idval_eq_dec : EqDecision idval.
Proof. solve_decision. Defined.

#[global] Instance idval_countable : Countable idval.
Proof.
  refine (inj_countable'
            (fun i => match i with
                      | IUndefined => inl false
                      | INull => inl true
                      | INum z => inr z
                      end)
            (fun s => match s with
                      | inl false => IUndefined
                      | inl true => INull
                      | inr z => INum z
                      end) _).
  intros []; reflexivity.
Defined.

(** Strict equality [===] on identifiers. *)
Definition strict_eq (a b : idval) : bool := bool_decide (a = b).

(** Loose equality with null, [x == null]: true for null and undefined. *)
Definition is_nullish (a : idval) : bool :=
  match a with
  | INum _ => false
  | _ => true
  end.

(** Exceptions. *)
Inductive error : Type :=
| TypeError.

Inductive exn (A : Type) : Type :=
| Ret (a : A)
| Throw (e : error).
Arguments Ret {A} a.
Arguments Throw {A} e.

Definition bind {A B : Type} (m : exn A) (k : A -> exn B) : exn B :=
  match m with
  | Ret a => k a
  | Throw e => Throw e
  end.

(** Reading the properties of a value that may be [undefined]. *)
Definition deref {A : Type} (o : option A) : exn A :=
  match o with
  | Some a => Ret a
  | None => Throw TypeError
  end.

End Js.

Import Js.

Notation "'do' x <- m ; k" := (bind m (fun x => k))
  (at level 10, x name, m at level 100, k at level 200, only parsing).
Notation "'do' ' pat <- m ; k" := (bind m (fun x => match x with pat => k end))
  (at level 10, pat pattern, m at level 100, k at level 200, only parsing).

(* ===================================================================== *)
(** ** routing/types.js and the records of the schema *)
(* ===================================================================== *)

Module Types.

Inductive EdgeMode : Type :=
| FLIGHT | TRAIN | BUS | RIDESHARE | WALK | METRO | TRAM | SHUTTLE.

Inductive OfferSourceType : Type :=
| API_LIVE | CACHED | MANUAL_STATIC | ESTIMATED_MODEL.

Inductive SearchStatus : Type :=
| OK | TIME_BUDGET_EXHAUSTED | NO_FEASIBLE_ROUTE.

Inductive StructureType : Type :=
| static | dynamic_template.

#[global] Instance EdgeMode_eq_dec : EqDecision EdgeMode.
Proof. solve_decision. Defined.

#[global] Instance SearchStatus_eq_dec : EqDecision SearchStatus.
Proof. solve_decision. Defined.

(** DEFAULT_RIDESHARE_MODEL. *)
Record RideshareModel : Type := {
  base_fare : R;
  per_km : R;
  per_min : R;
  avg_speed_kmh : R;
  surge_coeff : R
}.

Definition DEFAULT_RIDESHARE_MODEL : RideshareModel :=
  {| base_fare := 3; per_km := 125 / 100; per_min := 25 / 100;
     avg_speed_kmh := 35; surge_coeff := 1 |}.

(** The latitude and longitude properties of an object, each possibly
    absent. *)
Record Coords : Type := {
  c_lat : option R;
  c_lon : option R
}.

(** A location node.  [id] is null for an address node that is not
    persisted. *)
Record Node : Type := {
  id : idval;
  name : string;
  lat : R;
  lon : R
}.

Definition node_coords (n : Node) : Coords :=
  {| c_lat := Some (lat n); c_lon := Some (lon n) |}.

(** An edge_leg object.  Besides the columns of the edge_leg table and the
    properties the synthesizer writes, the record carries every property
    the code reads from it: [origin_node_id], [destination_node_id],
    [e_lat], [e_lon], [destination_lat] and [destination_lon]; a property
    the object does not have is [IUndefined], respectively [None].  The
    table of the migration names its end-point columns [from_node_id] and
    [to_node_id]. *)
Record EdgeLeg : Type := {
  e_id : idval;
  from_node_id : idval;
  to_node_id : idval;
  origin_node_id : idval;
  destination_node_id : idval;
  mode : EdgeMode;
  is_transfer : Z;
  distance_km : option R;
  duration_min : Z;
  co_located : Z;
  structure_type : StructureType;
  e_lat : option R;
  e_lon : option R;
  destination_lat : option R;
  destination_lon : option R
}.

Definition edge_coords (e : EdgeLeg) : Coords :=
  {| c_lat := e_lat e; c_lon := e_lon e |}.

(** An offer.  [price_total] is [None] when null. *)
Record Offer : Type := {
  edge_leg_id : idval;
  departure_time_utc : Z;
  arrival_time_utc : Z;
  price_total : option R;
  currency : string;
  source_type : OfferSourceType;
  retrieval_time_utc : Z;
  is_static : Z;
  validity_window_hrs : option R;
  ttl_hrs : option R
}.

(** A timed arc [{ edge_leg, offer }]. *)
Record Leg : Type := {
  edge_leg : EdgeLeg;
  offer : Offer
}.

(** The search parameters; [None] is an absent property, which the
    destructuring patterns replace by their defaults. *)
Record Params : Type := {
  maxExpansions : option Z;
  timeoutMs : option Z;
  timeValuePerHour : option R;
  transferPenalty : option R;
  maxDetourFactor : option R;
  riskPenalty : option R
}.

Definition no_params : Params :=
  {| maxExpansions := None; timeoutMs := None; timeValuePerHour := None;
     transferPenalty := None; maxDetourFactor := None; riskPenalty := None |}.

(** A search state, as [createState] builds it, seen through all the
    properties any function reads from it: [shouldPrune] and
    [computeLegGeneralizedCost] receive the same object as their [partial]
    and read [genCostSoFar], [transfersSoFar] and [origin] from it. *)
Record State : Type := {
  nodeId : idval;
  arrivalTimeUtc : Z;
  genCost : num;
  transfers : num;
  path : list Leg;
  genCostSoFar : option R;
  transfersSoFar : option R;
  origin : option Coords
}.

End Types.

Import Types.

(* ===================================================================== *)
(** ** routing/generalizedCost.js *)
(* ===================================================================== *)

Module Cost.

Local Open Scope R_scope.

(** [minutesBetween(startUtc, endUtc)]. *)
Definition minutesBetween (startUtc endUtc : Z) : R :=
  (IZR endUtc - IZR startUtc) / 60000.

Record LegCost : Type := {
  newGenCost : num;
  newTransfers : num;
  legDurationMin : R
}.

(** [offer.price_total || 0]: null and 0 both give 0. *)
Definition cash_of (o : Offer) : R :=
  match price_total o with
  | Some p => p
  | None => 0
  end.

Definition computeLegGeneralizedCost (partial : State) (leg : Leg) (params : Params)
  : LegCost :=
  let timeValuePerHour := default 20 (timeValuePerHour params) in
  let transferPenalty := default 6 (transferPenalty params) in
  let riskPenalty := default 0 (riskPenalty params) in
  let durationMin :=
    minutesBetween (departure_time_utc (offer leg)) (arrival_time_utc (offer leg)) in
  let durationHours := durationMin / 60 in
  let cash := cash_of (offer leg) in
  let isTransfer := bool_decide (is_transfer (edge_leg leg) = 1%Z) in
  let transferPenaltyCost := if isTransfer then transferPenalty else 0 in
  let riskCost := riskPenalty in
  {| newGenCost :=
       nadd (nadd (nadd (nadd (to_num (genCostSoFar partial)) (Fin cash))
                        (Fin (timeValuePerHour * durationHours)))
                  (Fin transferPenaltyCost))
            (Fin riskCost);
     newTransfers :=
       nadd (to_num (transfersSoFar partial)) (Fin (if isTransfer then 1 else 0));
     legDurationMin := durationMin |}.

(** The straight-line proxy [Math.sqrt(dx * dx + dy * dy) * 111] on two
    pairs of coordinates whose properties may be absent. *)
Definition approxKm (lat1 lon1 lat2 lon2 : option R) : num :=
  let dx := nsub (to_num lat1) (to_num lat2) in
  let dy := nsub (to_num lon1) (to_num lon2) in
  nmul (nsqrt (nadd (nmul dx dx) (nmul dy dy))) (Fin 111).

(** [estimateLowerBound(originNode, destNode, params)]; reading a property
    of an [undefined] argument throws. *)
Definition estimateLowerBound (originNode destNode : option Coords) (params : Params)
  : exn num :=
  let timeValuePerHour := default 20 (timeValuePerHour params) in
  do o <- deref originNode;
  do d <- deref destNode;
  let distKm := approxKm (c_lat o) (c_lon o) (c_lat d) (c_lon d) in
  let fastModeHours := ndiv distKm (Fin 700) in
  let lb := nmul (Fin timeValuePerHour) fastModeHours in
  Ret lb.

(** [bestCost !== null && x >= bestCost]. *)
Definition reaches (x : num) (bestCost : option num) : bool :=
  match bestCost with
  | Some b => nge x b
  | None => false
  end.

(** [shouldPrune(partial, nextLeg, bestCost, destNode, params)]. *)
Definition shouldPrune (partial : State) (nextLeg : Leg) (bestCost : option num)
    (destNode : option Coords) (params : Params) : exn bool :=
  let maxDetourFactor := default (22 / 10) (maxDetourFactor params) in
  let newGenCost := newGenCost (computeLegGeneralizedCost partial nextLeg params) in
  if reaches newGenCost bestCost then Ret true
  else
    do lb <- estimateLowerBound (Some (edge_coords (edge_leg nextLeg))) destNode params;
    if reaches (nadd newGenCost lb) bestCost then Ret true
    else
      do po <- deref (origin partial);
      let distSoFar :=
        approxKm (c_lat po) (c_lon po)
                 (destination_lat (edge_leg nextLeg))
                 (destination_lon (edge_leg nextLeg)) in
      do d <- deref destNode;
      let directDist := approxKm (c_lat po) (c_lon po) (c_lat d) (c_lon d) in
      if ngt distSoFar (nmul (Fin maxDetourFactor) directDist) then Ret true
      else Ret false.

(** A partial-path object with the three properties the evaluator
    documents: [{ genCostSoFar, transfersSoFar, arrivalTimeUtc }]. *)
Definition partial_with (g t : R) (arrival : Z) : State :=
  {| nodeId := IUndefined; arrivalTimeUtc := arrival; genCost := NaN; transfers := NaN;
     path := []; genCostSoFar := Some g; transfersSoFar := Some t; origin := None |}.

(** The generalized cost of a sequence of legs: the evaluator applied leg
    after leg, starting from cost [g]. *)
Fixpoint path_cost (params : Params) (g : R) (legs : list Leg) : num :=
  match legs with
  | [] => Fin g
  | leg :: rest =>
      match newGenCost (computeLegGeneralizedCost (partial_with g 0 0) leg params) with
      | Fin g' => path_cost params g' rest
      | NaN => NaN
      end
  end.

End Cost.

Import Cost.

(* ===================================================================== *)
(** ** routing/transfers.js *)
(* ===================================================================== *)

Module Transfers.

Local Open Scope R_scope.

(** [Math.atan2(y, x)]. *)
Definition atan2 (y x : R) : R :=
  if Rgtb x 0 then atan (y / x)
  else if Rltb x 0 then
    (if Rgeb y 0 then atan (y / x) + PI else atan (y / x) - PI)
  else if Rgtb y 0 then PI / 2
  else if Rltb y 0 then - (PI / 2)
  else 0.

Definition toRad (d : R) : R := d * PI / 180.

(** [haversine(lat1, lon1, lat2, lon2)], in km. *)
Definition haversine (lat1 lon1 lat2 lon2 : R) : R :=
  let R_earth := 6371 in
  let dLat := toRad (lat2 - lat1) in
  let dLon := toRad (lon2 - lon1) in
  let a :=
    (sin (dLat / 2)) ^ 2 +
    cos (toRad lat1) * cos (toRad lat2) * (sin (dLon / 2)) ^ 2 in
  R_earth * 2 * atan2 (sqrt a) (sqrt (1 - a)).

Definition node_distance (a b : Node) : R :=
  haversine (lat a) (lon a) (lat b) (lon b).

(** The edge_leg object literal shared by the three generators: they set
    [mode], [is_transfer], [distance_km], [duration_min], [co_located] and
    [structure_type], and nothing else. *)
Definition transfer_edge (m : EdgeMode) (distanceKm : R) (durationMin : Z)
    (st : StructureType) : EdgeLeg :=
  {| e_id := IUndefined;
     from_node_id := IUndefined;
     to_node_id := IUndefined;
     origin_node_id := IUndefined;
     destination_node_id := IUndefined;
     mode := m;
     is_transfer := 1;
     distance_km := Some distanceKm;
     duration_min := durationMin;
     co_located := if Rltb distanceKm (3 / 10) then 1%Z else 0%Z;
     structure_type := st;
     e_lat := None; e_lon := None;
     destination_lat := None; destination_lon := None |}.

(** [generateWalkTransfer(originNode, destNode)]; [now] is the reading of
    [new Date()]. *)
Definition generateWalkTransfer (now : Z) (originNode destNode : Node) : Leg :=
  let distanceKm := node_distance originNode destNode in
  let durationMin := Z.max 3 (round (distanceKm / 5 * 60)) in
  let arrival := (now + durationMin * 60000)%Z in
  {| edge_leg := transfer_edge WALK distanceKm durationMin static;
     offer :=
       {| edge_leg_id := IUndefined;
          departure_time_utc := now;
          arrival_time_utc := arrival;
          price_total := Some 0;
          currency := "USD";
          source_type := MANUAL_STATIC;
          retrieval_time_utc := now;
          is_static := 1;
          validity_window_hrs := Some 9999;
          ttl_hrs := None |} |}.

(** [generateRideshareTransfer(originNode, destNode, opts)]. *)
Definition generateRideshareTransfer (now : Z) (originNode destNode : Node)
    (opts : RideshareModel) : Leg :=
  let distanceKm := node_distance originNode destNode in
  let durationMin := Z.max 5 (round (distanceKm / avg_speed_kmh opts * 60)) in
  let price :=
    (base_fare opts + per_km opts * distanceKm + per_min opts * IZR durationMin)
    * surge_coeff opts in
  let price := IZR (round (price * 100)) / 100 in
  let arrival := (now + durationMin * 60000)%Z in
  {| edge_leg := transfer_edge RIDESHARE distanceKm durationMin dynamic_template;
     offer :=
       {| edge_leg_id := IUndefined;
          departure_time_utc := now;
          arrival_time_utc := arrival;
          price_total := Some price;
          currency := "USD";
          source_type := ESTIMATED_MODEL;
          retrieval_time_utc := now;
          is_static := 0;
          validity_window_hrs := None;
          ttl_hrs := Some 1 |} |}.

Record ShuttleOpts : Type := {
  flat_price : option R;
  sh_avg_speed_kmh : R
}.

Definition default_shuttle_opts : ShuttleOpts :=
  {| flat_price := Some 12; sh_avg_speed_kmh := 25 |}.

(** [generateShuttleTransfer(originNode, destNode, opts)]. *)
Definition generateShuttleTransfer (now : Z) (originNode destNode : Node)
    (opts : ShuttleOpts) : Leg :=
  let distanceKm := node_distance originNode destNode in
  let durationMin := round (distanceKm / sh_avg_speed_kmh opts * 60) in
  let arrival := (now + durationMin * 60000)%Z in
  let price := default 12 (flat_price opts) in
  {| edge_leg := transfer_edge SHUTTLE distanceKm durationMin static;
     offer :=
       {| edge_leg_id := IUndefined;
          departure_time_utc := now;
          arrival_time_utc := arrival;
          price_total := Some price;
          currency := "USD";
          source_type := MANUAL_STATIC;
          retrieval_time_utc := now;
          is_static := 1;
          validity_window_hrs := Some 24;
          ttl_hrs := None |} |}.

End Transfers.

Import Transfers.

(* ===================================================================== *)
(** ** routing/graph.js *)
(* ===================================================================== *)

Module Graph.

Local Open Scope R_scope.

(** The adjacency object: node id to the list of its timed arcs.  The keys
    of the JavaScript object are the identifiers printed as strings, which
    is injective on [idval]. *)
Abbreviation Adj := (gmap idval (list Leg)).

(** The wall clock: the reading of the [n]-th [new Date()] / [Date.now()]. *)
Abbreviation Clock := (nat -> Z).

(** The three tables [loadNodes], [loadStructuralEdges] and [loadOffers]
    return. *)
Record Db : Type := {
  db_nodes : list Node;
  db_edges : list EdgeLeg;
  db_offers : list Offer
}.

Record GraphT : Type := {
  nodes : list Node;
  adj : Adj
}.

(** [for (const x of xs) body], threading the mutable state. *)
Fixpoint for_of {A S : Type} (xs : list A) (body : A -> S -> exn S) (s : S) : exn S :=
  match xs with
  | [] => Ret s
  | x :: rest => do s' <- body x s; for_of rest body s'
  end.

(** [adj[k].push(l)]; throws when [adj[k]] is undefined. *)
Definition push (k : idval) (l : Leg) (adj : Adj) : exn Adj :=
  do ls <- deref (adj !! k);
  Ret (<[k := ls ++ [l]]> adj).

(** [offersByEdge], built by the grouping loop. *)
Definition group_offers (offers : list Offer) : gmap idval (list Offer) :=
  fold_left
    (fun acc off =>
       let list := default [] (acc !! edge_leg_id off) in
       <[edge_leg_id off := list ++ [off]]> acc)
    offers ∅.

(** [buildAdjacency(nodes, edges, offers)]. *)
Definition buildAdjacency (nodes : list Node) (edges : list EdgeLeg)
    (offers : list Offer) : exn Adj :=
  let adj0 : Adj := fold_left (fun acc n => <[id n := []]> acc) nodes ∅ in
  let offersByEdge := group_offers offers in
  for_of edges
    (fun e adj =>
       let list := default [] (offersByEdge !! e_id e) in
       for_of list
         (fun off adj => push (origin_node_id e) {| edge_leg := e; offer := off |} adj)
         adj)
    adj0.

(** The distance test of [addTransferEdges]. *)
Definition distApprox (a b : Node) : R :=
  let dx := lat a - lat b in
  let dy := lon a - lon b in
  sqrt (dx * dx + dy * dy) * 111.

(** The body of the inner loop of [addTransferEdges] for the pair
    [(a, b)]; the state is the number of clock readings so far and the
    adjacency. *)
Definition transfer_pair (clock : Clock) (radiusKm : R) (a b : Node)
    (s : nat * Adj) : exn (nat * Adj) :=
  let '(t, adj) := s in
  if strict_eq (id a) (id b) then Ret s
  else if Rgtb (distApprox a b) radiusKm then Ret s
  else
    let walk := generateWalkTransfer (clock t) a b in
    do adj <- push (id a) walk adj;
    let rs := generateRideshareTransfer (clock (S t)) a b DEFAULT_RIDESHARE_MODEL in
    do adj <- push (id a) rs adj;
    let sh := generateShuttleTransfer (clock (S (S t))) a b default_shuttle_opts in
    do adj <- push (id a) sh adj;
    Ret (S (S (S t)), adj).

(** [addTransferEdges(nodes, adj, radiusKm = 3.0)]. *)
Definition addTransferEdges (clock : Clock) (nodes : list Node) (radiusKm : R)
    (s : nat * Adj) : exn (nat * Adj) :=
  for_of nodes
    (fun a s => for_of nodes (fun b s => transfer_pair clock radiusKm a b s) s)
    s.

(** [buildGraph()] over the loaded tables. *)
Definition buildGraph (clock : Clock) (t : nat) (db : Db) : exn (nat * GraphT) :=
  let nodes := db_nodes db in
  let edges := db_edges db in
  let offers := db_offers db in
  do adj <- buildAdjacency nodes edges offers;
  do '(t', adj) <- addTransferEdges clock nodes 3 (t, adj);
  Ret (t', {| nodes := nodes; adj := adj |}).

(** Vocabulary for the statements about the assembled adjacency: the three
    arcs synthesized for a pair, the test that guards them, and the modes
    of the arcs stored under a key. *)
Definition pair_arcs (clock : Clock) (t : nat) (a b : Node) : list Leg :=
  [ generateWalkTransfer (clock t) a b;
    generateRideshareTransfer (clock (S t)) a b DEFAULT_RIDESHARE_MODEL;
    generateShuttleTransfer (clock (S (S t))) a b default_shuttle_opts ].

Definition near (radiusKm : R) (a b : Node) : bool :=
  negb (strict_eq (id a) (id b)) && negb (Rgtb (distApprox a b) radiusKm).

Definition pair_modes (radiusKm : R) (a b : Node) : list EdgeMode :=
  if near radiusKm a b then [WALK; RIDESHARE; SHUTTLE] else [].

Definition leg_mode (l : Leg) : EdgeMode := mode (edge_leg l).

Definition arcs_at (adj : Adj) (k : idval) : list Leg := default [] (adj !! k).

Definition modes_at (adj : Adj) (k : idval) : list EdgeMode :=
  map leg_mode (arcs_at adj k).

(** [synthesized clock radiusKm nodes k l]: the arc [l] is one of the three
    transfers generated for an ordered pair [(a, b)] of [nodes] that passes
    the test, with [a] stored under the key [k]. *)
Definition synthesized (clock : Clock) (radiusKm : R) (nodes : list Node)
    (k : idval) (l : Leg) : Prop :=
  exists a b t,
    In a nodes /\ In b nodes /\ id a = k /\ near radiusKm a b = true
    /\ In l (pair_arcs clock t a b).

(** The node table [nodeById] of the search. *)
Definition node_table (g : GraphT) : gmap idval Node :=
  fold_left (fun acc n => <[id n := n]> acc) (nodes g) ∅.


End Graph.

Import Graph.

(* ===================================================================== *)
(** ** routing/search.js *)
(* ===================================================================== *)

Module Search.

(** A normalized place specification, as [normalizePlaceSpec] returns it;
    a flag that is absent is [false]. *)
Record PlaceSpec : Type := {
  isAddress : bool;
  isArea : bool;
  isHotelQuery : bool;
  spec_nodes : list Node
}.

(** [createState(nodeId, arrivalTimeUtc, genCost, transfers, path)]: the
    object has exactly these five properties. *)
Definition createState (nodeId : idval) (arrivalTimeUtc : Z) (genCost transfers : num)
    (path : list Leg) : State :=
  {| nodeId := nodeId;
     arrivalTimeUtc := arrivalTimeUtc;
     genCost := genCost;
     transfers := transfers;
     path := path;
     genCostSoFar := None;
     transfersSoFar := None;
     origin := None |}.

(** The dominance map; the key string [nodeId:bucket] is kept as the pair
    it encodes. *)
Abbreviation DomKey := (idval * Z)%type.
Abbreviation DomMap := (gmap (idval * Z) num).

(** [makeDominanceKey(nodeId, arrivalTimeUtc)]: 5-minute buckets. *)
Definition makeDominanceKey (nodeId : idval) (arrivalTimeUtc : Z) : DomKey :=
  let t := arrivalTimeUtc in
  let bucket := (t / (5 * 60 * 1000))%Z in
  (nodeId, bucket).

(** [isDominated(state, dominanceMap)]: the answer and the map after the
    call. *)
Definition isDominated (state : State) (dominanceMap : DomMap) : bool * DomMap :=
  let key := makeDominanceKey (nodeId state) (arrivalTimeUtc state) in
  let prevBest := dominanceMap !! key in
  match prevBest with
  | Some prev =>
      if nle prev (genCost state) then (true, dominanceMap)
      else (false, <[key := genCost state]> dominanceMap)
  | None => (false, <[key := genCost state]> dominanceMap)
  end.

(** [isDestination(state, destSpec)]. *)
Definition isDestination (state : State) (destSpec : PlaceSpec) : exn bool :=
  if isAddress destSpec then
    do n0 <- deref (head (spec_nodes destSpec));
    Ret (strict_eq (nodeId state) (id n0))
  else if isArea destSpec || isHotelQuery destSpec then
    let destIds := map id (spec_nodes destSpec) in
    Ret (bool_decide (nodeId state ∈ destIds))
  else Ret false.

(** The same state object with another [arrivalTimeUtc]. *)
Definition with_arrival (s : State) (arrival : Z) : State :=
  {| nodeId := nodeId s; arrivalTimeUtc := arrival; genCost := genCost s;
     transfers := transfers s; path := path s; genCostSoFar := genCostSoFar s;
     transfersSoFar := transfersSoFar s; origin := origin s |}.

Definition extractDestinationNodes (destSpec : PlaceSpec) : list Node :=
  spec_nodes destSpec.

(** [frontier.sort((a, b) => a.genCost - b.genCost)]: the sort is stable;
    an element is placed before the first one whose cost is greater.  A
    comparator value of NaN counts as 0. *)
Fixpoint insert_by_cost (x : State) (l : list State) : list State :=
  match l with
  | [] => [x]
  | y :: l' =>
      if ngt (nsub (genCost y) (genCost x)) (Fin 0) then x :: y :: l'
      else y :: insert_by_cost x l'
  end.

Definition sort_frontier (frontier : list State) : list State :=
  fold_left (fun acc x => insert_by_cost x acc) frontier [].

Record SearchResult : Type := {
  search_status : SearchStatus;
  best_itinerary : option State;
  expansions : nat
}.

(** The mutable variables of the main loop. *)
Record LoopState : Type := {
  ls_clock : nat;
  ls_frontier : list State;
  ls_dominance : DomMap;
  ls_bestCost : option num;
  ls_bestState : option State;
  ls_expansions : nat
}.

Section search.

(** The wall clock and [Math.floor(Math.random() * 1000000)]. *)
Variable clock : Clock.
Variable random : nat -> Z.

Variable graph : GraphT.
Variable originSpec destSpec : PlaceSpec.
Variable params : Params.

Definition nodeById : gmap idval Node := node_table graph.

Definition node_at (i : idval) : option Coords := node_coords <$> nodeById !! i.

Definition destNodes : list Node := extractDestinationNodes destSpec.

(** The seeding loop; the state is the number of clock readings, the
    number of random draws and the frontier. *)
Definition seed (orig : Node) (s : nat * nat * list State) : nat * nat * list State :=
  let '(t, r, frontier) := s in
  let '(orig_id, r) :=
    if is_nullish (id orig) then (INum (- random r), S r) else (id orig, r) in
  let initial := createState orig_id (clock t) (Fin 0) (Fin 0) [] in
  (S t, r, frontier ++ [initial]).

(** The body of [for (const leg of outgoing)]; the state is the
    dominance map and the frontier. *)
Definition expand_leg (state : State) (bestCost : option num) (leg : Leg)
    (s : DomMap * list State) : exn (DomMap * list State) :=
  let '(dominanceMap, frontier) := s in
  do d0 <- deref (head destNodes);
  do pruned <- shouldPrune state leg bestCost (node_at (id d0)) params;
  if pruned then Ret s
  else
    let c := computeLegGeneralizedCost state leg params in
    let newState :=
      createState (destination_node_id (edge_leg leg))
                  (arrival_time_utc (offer leg))
                  (newGenCost c) (newTransfers c)
                  (path state ++ [leg]) in
    let '(dominated, dominanceMap) := isDominated newState dominanceMap in
    if dominated then Ret (dominanceMap, frontier)
    else Ret (dominanceMap, frontier ++ [newState]).

(** One iteration of [while (frontier.length > 0)]: the search either
    returns ([inl]) or goes round the loop again ([inr]). *)
Definition iteration (startTime : Z) (ls : LoopState)
  : exn (SearchResult + LoopState) :=
  let maxExpansions := default 100000%Z (maxExpansions params) in
  let timeoutMs := default 5000%Z (timeoutMs params) in
  let exhausted :=
    {| search_status := TIME_BUDGET_EXHAUSTED;
       best_itinerary := ls_bestState ls;
       expansions := ls_expansions ls |} in
  if (clock (ls_clock ls) - startTime >? timeoutMs)%Z then Ret (inl exhausted)
  else if (Z.of_nat (ls_expansions ls) >? maxExpansions)%Z then Ret (inl exhausted)
  else
    do state <- deref (head (sort_frontier (ls_frontier ls)));
    let frontier := tail (sort_frontier (ls_frontier ls)) in
    let expansions := S (ls_expansions ls) in
    let t := S (ls_clock ls) in
    do atDest <- isDestination state destSpec;
    if atDest then
      let arrivalCost := genCost state in
      let '(bestCost, bestState) :=
        match ls_bestCost ls with
        | None => (arrivalCost, Some state)
        | Some b =>
            if nlt arrivalCost b then (arrivalCost, Some state)
            else (b, ls_bestState ls)
        end in
      let continue :=
        {| ls_clock := t; ls_frontier := frontier;
           ls_dominance := ls_dominance ls;
           ls_bestCost := Some bestCost; ls_bestState := bestState;
           ls_expansions := expansions |} in
      match frontier with
      | f0 :: _ =>
          do d0 <- deref (head destNodes);
          do lb <- estimateLowerBound (node_at (nodeId f0)) (node_at (id d0)) params;
          let lbFrontier := nadd (genCost f0) lb in
          if nge lbFrontier bestCost then
            Ret (inl {| search_status := OK;
                        best_itinerary := bestState;
                        expansions := expansions |})
          else Ret (inr continue)
      | [] => Ret (inr continue)
      end
    else
      let outgoing := default [] (adj graph !! nodeId state) in
      do '(dominanceMap, frontier) <-
        for_of outgoing (expand_leg state (ls_bestCost ls))
               (ls_dominance ls, frontier);
      Ret (inr {| ls_clock := t; ls_frontier := frontier;
                  ls_dominance := dominanceMap;
                  ls_bestCost := ls_bestCost ls;
                  ls_bestState := ls_bestState ls;
                  ls_expansions := expansions |}).

(** The main loop, for at most [fuel] iterations; [None] when the fuel
    runs out. *)
Fixpoint main_loop (fuel : nat) (startTime : Z) (ls : LoopState)
  : option (exn SearchResult) :=
  match ls_frontier ls with
  | [] =>
      Some (Ret {| search_status := NO_FEASIBLE_ROUTE;
                   best_itinerary := None;
                   expansions := ls_expansions ls |})
  | _ :: _ =>
      match fuel with
      | O => None
      | S fuel' =>
          match iteration startTime ls with
          | Throw e => Some (Throw e)
          | Ret (inl result) => Some (Ret result)
          | Ret (inr ls') => main_loop fuel' startTime ls'
          end
      end
  end.

(** [searchItinerariesDoorToDoor], after [buildGraph] has returned
    [graph]; [t0] is the number of clock readings so far. *)
Definition search_from (fuel : nat) (t0 : nat) : option (exn SearchResult) :=
  let startTime := clock t0 in
  let '(t, _, frontier) :=
    fold_left (fun s orig => seed orig s) (spec_nodes originSpec) (S t0, O, []) in
  main_loop fuel startTime
    {| ls_clock := t; ls_frontier := frontier; ls_dominance := ∅;
       ls_bestCost := None; ls_bestState := None; ls_expansions := O |}.

End search.

(** [searchItinerariesDoorToDoor(originSpec, destSpec, params)] over the
    tables of the store. *)
Definition searchItinerariesDoorToDoor (clock : Clock) (random : nat -> Z) (db : Db)
    (originSpec destSpec : PlaceSpec) (params : Params) (fuel : nat)
  : option (exn SearchResult) :=
  match buildGraph clock O db with
  | Throw e => Some (Throw e)
  | Ret (t, graph) => search_from clock random graph originSpec destSpec params fuel t
  end.

End Search.

Import Search.

(* ===================================================================== *)
(** ** routing/apiCache.js *)
(* ===================================================================== *)

Module ApiCache.

Local Open Scope string_scope.
Local Open Scope Z_scope.

(** JSON values: what a parameters object or a provider response holds.
    Numbers are kept to the integers; an object is the list of its own
    properties in insertion order (no key twice). *)
#[warnings="-register-all"]
Inductive json : Type :=
| JNull
| JBool (b : bool)
| JNumber (z : Z)
| JString (s : string)
| JArray (items : list json)
| JObject (fields : list (string * json)).

Definition dquote : ascii := "034"%char.
Definition backslash : ascii := "092"%char.

Definition hex_digit (n : nat) : ascii :=
  nth n (list_ascii_of_string "0123456789abcdef") "0"%char.

(** The escape of one character inside a JSON string. *)
Definition escape_char (c : ascii) : string :=
  let n := nat_of_ascii c in
  if Nat.eqb n 8 then String backslash "b"
  else if Nat.eqb n 9 then String backslash "t"
  else if Nat.eqb n 10 then String backslash "n"
  else if Nat.eqb n 12 then String backslash "f"
  else if Nat.eqb n 13 then String backslash "r"
  else if Nat.eqb n 34 then String backslash (String dquote "")
  else if Nat.eqb n 92 then String backslash (String backslash "")
  else if Nat.ltb n 32 then
    String backslash
      ("u00" ++ String (hex_digit (Nat.div n 16)) (String (hex_digit (Nat.modulo n 16)) ""))
  else String c "".

Fixpoint escape (s : string) : string :=
  match s with
  | EmptyString => ""
  | String c rest => escape_char c ++ escape rest
  end.

(** QuoteJSONString. *)
Definition quote (s : string) : string :=
  String dquote (escape s ++ String dquote "").

Fixpoint join (sep : string) (l : list string) : string :=
  match l with
  | [] => ""
  | [x] => x
  | x :: rest => x ++ sep ++ join sep rest
  end.

(** [JSON.stringify(value, replacer)] without indentation.  [allow] is the
    property list of an array replacer: when it is given, every object, at
    every depth, is written through the keys of that list, in the order of
    the list, and a key the object does not have is skipped.  Without a
    replacer an object is written through its own keys. *)
Fixpoint stringify (allow : option (list string)) (v : json) : string :=
  match v with
  | JNull => "null"
  | JBool b => if b then "true" else "false"
  | JNumber z => pretty z
  | JString s => quote s
  | JArray items => "[" ++ join "," (map (stringify allow) items) ++ "]"
  | JObject fields =>
      let member (k : string) : option string :=
        (fix find (l : list (string * json)) : option string :=
           match l with
           | [] => None
           | (k', v') :: l' =>
               if String.eqb k k' then Some (quote k ++ ":" ++ stringify allow v')
               else find l'
           end) fields in
      let own :=
        (fix all (l : list (string * json)) : list string :=
           match l with
           | [] => []
           | (k', v') :: l' => (quote k' ++ ":" ++ stringify allow v') :: all l'
           end) fields in
      match allow with
      | Some keys => "{" ++ join "," (omap member keys) ++ "}"
      | None => "{" ++ join "," own ++ "}"
      end
  end.

(** [Array.prototype.sort()] on strings: ascending by code units. *)
Fixpoint insert_key (k : string) (l : list string) : list string :=
  match l with
  | [] => [k]
  | k' :: l' => if String.ltb k k' then k :: k' :: l' else k' :: insert_key k l'
  end.

Definition sort_keys (l : list string) : list string :=
  fold_left (fun acc k => insert_key k acc) l [].

(** [Object.keys(obj)]. *)
Definition object_keys (fields : list (string * json)) : list string :=
  map fst fields.

(** One row of the api_cache table. *)
Record CacheRow : Type := {
  row_id : Z;
  provider : string;
  endpoint : string;
  canonical_params_hash : string;
  canonical_params_json : string;
  response_body_json : string;
  created_at_utc : Z;
  expires_at_utc : Z;
  last_used_at_utc : Z;
  hit_count : Z
}.

(** Why the store does not answer a statement with rows.  [openDb()] passes
    no callback and registers no listener: when the database file cannot be
    opened, sqlite3 emits an error event that nobody handles and the
    statements queued on the handle are never run, so that their callbacks
    are never called.  On a database that opened, a statement that fails
    (the api_cache table is missing because the migrations were not run,
    the disk is full, ...) hands its error to its callback. *)
Inductive failure : Type :=
| CannotOpen
| StatementError (err : string).

(** The store behind [openDb()]: its api_cache rows, and what is wrong with
    it, if anything. *)
Record Store : Type := {
  rows : list CacheRow;
  fault : option failure
}.

(** How the promise an async function returns ends: resolved, rejected, or
    never settled, with an exception that nobody catches (thrown inside the
    callback, or the error event of a database that cannot be opened). *)
Inductive settled (A : Type) : Type :=
| Resolved (a : A)
| Rejected (err : string)
| Uncaught.
Arguments Resolved {A} a.
Arguments Rejected {A} err.
Arguments Uncaught {A}.

Definition same_key (p e h : string) (r : CacheRow) : bool :=
  String.eqb (provider r) p && String.eqb (endpoint r) e
  && String.eqb (canonical_params_hash r) h.

(** [db.get(sql, [provider, endpoint, hash], cb)]: the arguments of the
    callback, [None] when the callback is never called. *)
Definition db_get (db : Store) (p e h : string) : option (string + option CacheRow) :=
  match fault db with
  | Some CannotOpen => None
  | Some (StatementError err) => Some (inl err)
  | None => Some (inr (find (same_key p e h) (rows db)))
  end.

(** [UPDATE api_cache SET last_used_at_utc=?, hit_count=hit_count+1 WHERE
    id=?], run without a callback. *)
Definition db_touch (db : Store) (now : Z) (rid : Z) : Store :=
  match fault db with
  | Some _ => db
  | None =>
      {| rows :=
           map (fun r =>
                  if Z.eqb (row_id r) rid then
                    {| row_id := row_id r; provider := provider r;
                       endpoint := endpoint r;
                       canonical_params_hash := canonical_params_hash r;
                       canonical_params_json := canonical_params_json r;
                       response_body_json := response_body_json r;
                       created_at_utc := created_at_utc r;
                       expires_at_utc := expires_at_utc r;
                       last_used_at_utc := now;
                       hit_count := hit_count r + 1 |}
                  else r)
               (rows db);
         fault := None |}
  end.

Definition next_id (l : list CacheRow) : Z :=
  fold_left (fun m r => Z.max m (row_id r)) l 0 + 1.

(** The message of the error raised by the unique index idx_api_cache_key
    of the migration. *)
Definition unique_violation : string :=
  "SQLITE_CONSTRAINT: UNIQUE constraint failed: api_cache.provider, api_cache.endpoint, api_cache.canonical_params_hash".

(** The INSERT of [apiCachePut] under the unique index on (provider,
    endpoint, canonical_params_hash): the error or the new row id handed to
    the callback ([None] when the callback is never called), and the store
    afterwards. *)
Definition db_insert (db : Store) (r : Z -> CacheRow) : option (string + Z) * Store :=
  match fault db with
  | Some CannotOpen => (None, db)
  | Some (StatementError err) => (Some (inl err), db)
  | None =>
      let rid := next_id (rows db) in
      let row := r rid in
      if existsb (same_key (provider row) (endpoint row) (canonical_params_hash row))
                 (rows db)
      then (Some (inl unique_violation), db)
      else (Some (inr rid), {| rows := rows db ++ [row]; fault := None |})
  end.

Section cache.

(** [crypto.createHash("sha256").update(json).digest("hex")] and
    [JSON.parse] ([None]: SyntaxError) belong to the platform. *)
Variable sha256_hex : string -> string.
Variable json_parse : string -> option json.

(** [canonicalHash(obj)]. *)
Definition canonicalHash (obj : list (string * json)) : string :=
  let json := stringify (Some (sort_keys (object_keys obj))) (JObject obj) in
  sha256_hex json.

(** [apiCacheGet(provider, endpoint, params)]; [now] is [Date.now()] and
    [now'] the later [new Date()].  The promise resolves with a JSON value:
    [resolve(null)] and a cached body that is the JSON text of null both
    give [JNull]. *)
Definition apiCacheGet (db : Store) (now now' : Z) (p e : string)
    (params : list (string * json)) : settled json * Store :=
  let hash := canonicalHash params in
  match db_get db p e hash with
  | None => (Uncaught, db)
  | Some (inl err) => (Rejected err, db)
  | Some (inr (Some row)) =>
      let expires := expires_at_utc row in
      let valid := now <? expires in
      let db' := db_touch db now' (row_id row) in
      if valid then
        match json_parse (response_body_json row) with
        | Some body => (Resolved body, db')
        | None => (Uncaught, db')
        end
      else (Resolved JNull, db')
  | Some (inr None) => (Resolved JNull, db)
  end.

(** [apiCachePut(provider, endpoint, params, response, ttlHours = 6)];
    [now] is [new Date()]. *)
Definition apiCachePut (db : Store) (now : Z) (p e : string)
    (params : list (string * json)) (response : json) (ttlHours : Z)
  : settled Z * Store :=
  let hash := canonicalHash params in
  let expires := now + ttlHours * 3600 * 1000 in
  let row (rid : Z) :=
    {| row_id := rid; provider := p; endpoint := e;
       canonical_params_hash := hash;
       canonical_params_json := stringify None (JObject params);
       response_body_json := stringify None response;
       created_at_utc := now;
       expires_at_utc := expires;
       last_used_at_utc := now;
       hit_count := 0 |} in
  match db_insert db row with
  | (None, db') => (Uncaught, db')
  | (Some (inl err), db') => (Rejected err, db')
  | (Some (inr lastID), db') => (Resolved lastID, db')
  end.

End cache.

End ApiCache.

Import ApiCache.

(* ===================================================================== *)
(** ** Sample data *)
(* ===================================================================== *)

Definition sample_offer (dep arr : Z) (price : option R) : Offer :=
  {| edge_leg_id := INum 1; departure_time_utc := dep; arrival_time_utc := arr;
     price_total := price; currency := "USD"; source_type := API_LIVE;
     retrieval_time_utc := 0; is_static := 0;
     validity_window_hrs := None; ttl_hrs := None |}.

(** An edge object that carries its end points under the names the code
    reads. *)
Definition sample_edge (from to : Z) (m : EdgeMode) (transfer : Z) : EdgeLeg :=
  {| e_id := INum 1; from_node_id := INum from; to_node_id := INum to;
     origin_node_id := INum from; destination_node_id := INum to;
     mode := m; is_transfer := transfer; distance_km := None; duration_min := 0;
     co_located := 0; structure_type := static;
     e_lat := None; e_lon := None; destination_lat := None; destination_lon := None |}.

(** A row as [SELECT * FROM edge_leg] gives it under the migration. *)
Definition table_edge (from to : Z) (m : EdgeMode) (transfer : Z) : EdgeLeg :=
  {| e_id := INum 1; from_node_id := INum from; to_node_id := INum to;
     origin_node_id := IUndefined; destination_node_id := IUndefined;
     mode := m; is_transfer := transfer; distance_km := None; duration_min := 0;
     co_located := 0; structure_type := static;
     e_lat := None; e_lon := None; destination_lat := None; destination_lon := None |}.

Definition sample_partial (g t : R) (arrival : Z) : State := partial_with g t arrival.

(** A clock that advances by one millisecond at every reading. *)
Definition ticking_clock (n : nat) : Z := (1763000000000 + Z.of_nat n)%Z.

Definition mk_node (i : Z) (la lo : R) : Node :=
  {| id := INum i; name := "node"; lat := la; lon := lo |}.

(** Two nodes at the north pole, entered with different longitudes. *)
Definition pole_a : Node := mk_node 1 90 0.
Definition pole_b : Node := mk_node 2 90 180.

Definition empty_entries (ns : list Node) : Adj :=
  fold_left (fun acc n => <[id n := []]> acc) ns ∅.

(** Two airports on the 60th parallel, ten degrees of longitude apart, and
    one flight between them. *)
Definition far_u : Node := mk_node 1 60 0.
Definition far_d : Node := mk_node 2 60 10.

Definition flight_edge : EdgeLeg := sample_edge 1 2 FLIGHT 0.

Definition fast_flight : Leg :=
  {| edge_leg := flight_edge; offer := sample_offer 0 3600000 (Some 5%R) |}.

Definition flight_db (l : Leg) : Db :=
  {| db_nodes := [far_u; far_d]; db_edges := [edge_leg l]; db_offers := [offer l] |}.

Definition flight_graph (l : Leg) : GraphT :=
  {| nodes := [far_u; far_d];
     adj := <[INum 1 := [l]]> (empty_entries [far_u; far_d]) |}.

(** Two states that reach node 7 in the same 5-minute bucket at cost 50. *)
Definition first_at_7 : State := createState (INum 7) 600000 (Fin 50) (Fin 0) [].
Definition second_at_7 : State := createState (INum 7) 660000 (Fin 50) (Fin 1) [].

(** A state object that also carries an [origin], boarded at 02:00 on a
    flight that left at 00:00. *)
Definition boarded : State :=
  {| nodeId := INum 1; arrivalTimeUtc := 7200000; genCost := Fin 0; transfers := Fin 0;
     path := []; genCostSoFar := Some 0%R; transfersSoFar := Some 0%R;
     origin := Some (node_coords far_u) |}.

Definition area_of (ns : list Node) : PlaceSpec :=
  {| isAddress := false; isArea := true; isHotelQuery := false; spec_nodes := ns |}.

(** Two stations 1.11 planar km apart, with no scheduled service. *)
Definition near_a : Node := mk_node 1 0 0.
Definition near_b : Node := mk_node 2 0 (1 / 100).

Definition nodes_only (ns : list Node) : Db :=
  {| db_nodes := ns; db_edges := []; db_offers := [] |}.

(** The graph assembled from the two stations: each has the three
    transfers to the other. *)
Definition near_graph (clock : Clock) : GraphT :=
  {| nodes := [near_a; near_b];
     adj := <[INum 2 := pair_arcs clock 3 near_b near_a]>
              (<[INum 1 := pair_arcs clock 0 near_a near_b]>
                 (empty_entries [near_a; near_b])) |}.

Definition budget_zero : Params :=
  {| maxExpansions := Some 0%Z; timeoutMs := None; timeValuePerHour := None;
     transferPenalty := None; maxDetourFactor := None; riskPenalty := None |}.

(** Two parameter objects that differ only in a nested value. *)
Definition params_100 : list (string * json) :=
  [("filters", JObject [("max_price", JNumber 100)]); ("origin", JString "NYC")].

Definition params_200 : list (string * json) :=
  [("filters", JObject [("max_price", JNumber 200)]); ("origin", JString "NYC")].



(* ===================================================================== *)
(** ** routing/placeNormalization.js *)
(* ===================================================================== *)

Module Place.

Local Open Scope string_scope.

(** Strings are sequences of code units below 256.  Among these, the white
    space of [trim] and of the regular expression class [\s] is TAB, LF,
    VT, FF, CR, SP and NBSP. *)
Definition is_space (c : ascii) : bool :=
  let n := nat_of_ascii c in
  (Nat.leb 9 n && Nat.leb n 13) || Nat.eqb n 32 || Nat.eqb n 160.

Fixpoint trimStart (s : string) : string :=
  match s with
  | EmptyString => ""
  | String c r => if is_space c then trimStart r else s
  end.

Fixpoint trimEnd (s : string) : string :=
  match s with
  | EmptyString => ""
  | String c r =>
      match trimEnd r with
      | EmptyString => if is_space c then "" else String c ""
      | r' => String c r'
      end
  end.

(** [s.trim()]. *)
Definition trim (s : string) : string := trimEnd (trimStart s).

(** [s.startsWith(p)]. *)
Definition startsWith (s p : string) : bool := String.prefix p s.

Fixpoint drop_chars (n : nat) (s : string) : string :=
  match n, s with
  | O, _ => s
  | S n', String _ r => drop_chars n' r
  | S _, EmptyString => ""
  end.

(** [s.replace(pat, rep)] for a string pattern: the first occurrence. *)
Fixpoint replace (pat rep s : string) : string :=
  if String.prefix pat s then rep ++ drop_chars (String.length pat) s
  else match s with
       | EmptyString => ""
       | String c r => String c (replace pat rep r)
       end.

(** [toLowerCase] of one code unit: A-Z and the capital letters of
    Latin-1. *)
Definition lower (c : ascii) : ascii :=
  let n := nat_of_ascii c in
  if (Nat.leb 65 n && Nat.leb n 90)
     || (Nat.leb 192 n && Nat.leb n 222 && negb (Nat.eqb n 215))
  then ascii_of_nat (n + 32) else c.

Fixpoint toLowerCase (s : string) : string :=
  match s with
  | EmptyString => ""
  | String c r => String (lower c) (toLowerCase r)
  end.

(** [s.split(/\s+/)]: the pieces between the maximal runs of white space;
    a run at either end leaves an empty piece there. *)
Fixpoint split_ws (s : string) : list string :=
  match s with
  | EmptyString => [""]
  | String c r =>
      if is_space c then
        match r with
        | String c' _ => if is_space c' then split_ws r else "" :: split_ws r
        | EmptyString => "" :: split_ws r
        end
      else
        match split_ws r with
        | w :: ws => String c w :: ws
        | [] => [String c ""]
        end
  end.

(** [words.indexOf(w)]; [None] is -1. *)
Fixpoint indexOf (w : string) (words : list string) : option nat :=
  match words with
  | [] => None
  | x :: rest => if String.eqb x w then Some O else S <$> indexOf w rest
  end.

(** [/hotel/i.test(s)]. *)
Fixpoint test_hotel (s : string) : bool :=
  String.prefix "hotel" (toLowerCase s)
  || match s with
     | EmptyString => false
     | String _ r => test_hotel r
     end.

Definition NodeKind_HOTEL : string := "hotel".
Definition NodeKind_ADDRESS : string := "address".

(** A row of the area table. *)
Record Area : Type := {
  a_id : Z;
  a_name : string
}.

(** A location node with the properties [createAddressNode] sets and the
    columns of location_node that are read. *)
Record NodeRow : Type := {
  n_id : idval;
  n_name : string;
  kind : string;
  n_lat : R;
  n_lon : R;
  area_id : option Z;
  is_hub : Z
}.

(** What [normalizePlaceSpec] resolves with; a flag that is not set is
    [false]. *)
Record Place : Type := {
  p_isAddress : bool;
  p_isArea : bool;
  p_isHotelQuery : bool;
  address : option string;
  area : option Area;
  p_nodes : list NodeRow
}.

(** The node and the specification as the search reads them. *)
Definition to_node (n : NodeRow) : Node :=
  {| id := n_id n; name := n_name n; lat := n_lat n; lon := n_lon n |}.

Definition to_spec (p : Place) : PlaceSpec :=
  {| isAddress := p_isAddress p; isArea := p_isArea p;
     isHotelQuery := p_isHotelQuery p; spec_nodes := map to_node (p_nodes p) |}.

(** [geocodeAddressRaw(addressString)]. *)
Definition geocodeAddressRaw (addressString : string) : R * R :=
  let hash :=
    fold_left (fun a c => (a + Z.of_nat (nat_of_ascii c))%Z)
              (list_ascii_of_string addressString) 0%Z in
  let lat := (39 + IZR (hash mod 100) * (1 / 1000))%R in
  let lon := (-86 - IZR (hash mod 100) * (1 / 1000))%R in
  (lat, lon).

(** [createAddressNode(address, lat, lon)]. *)
Definition createAddressNode (address : string) (lat lon : R) : NodeRow :=
  {| n_id := INull; n_name := address; kind := NodeKind_ADDRESS;
     n_lat := lat; n_lon := lon; area_id := None; is_hub := 0 |}.

Section lookups.

(** The two SELECT statements: the error or the rows [db.all] hands to the
    callback, for the name searched with LIKE and for the area id. *)
Variable select_areas : string -> string + list Area.
Variable select_nodes : Z -> string + list NodeRow.

Definition lookupAreaByName (nameRaw : string) : string + list Area :=
  select_areas nameRaw.

Definition lookupNodesInArea (areaId : Z) : string + list NodeRow :=
  select_nodes areaId.

(** [normalizePlaceSpec(specRaw)]: how the promise settles. *)
Definition normalizePlaceSpec (specRaw : string) : settled Place :=
  let spec := trim specRaw in
  if startsWith spec "address:" then
    let addr := trim (replace "address:" "" spec) in
    let '(lat, lon) := geocodeAddressRaw addr in
    Resolved {| p_isAddress := true; p_isArea := false; p_isHotelQuery := false;
                address := Some addr; area := None;
                p_nodes := [createAddressNode addr lat lon] |}
  else if startsWith (toLowerCase spec) "hotel" then
    let fallback :=
      let '(lat, lon) := geocodeAddressRaw spec in
      Resolved {| p_isAddress := false; p_isArea := false; p_isHotelQuery := true;
                  address := None; area := None;
                  p_nodes := [createAddressNode spec lat lon] |} in
    let words := split_ws spec in
    match indexOf "near" words with
    | Some nearIndex =>
        if Nat.ltb nearIndex (length words - 1) then
          let target := join " " (drop (nearIndex + 1) words) in
          match lookupAreaByName target with
          | inl err => Rejected err
          | inr [] => fallback
          | inr (area0 :: _) =>
              match lookupNodesInArea (a_id area0) with
              | inl err => Rejected err
              | inr nodes =>
                  let hotels :=
                    List.filter
                      (fun n => String.eqb (kind n) NodeKind_HOTEL || test_hotel (n_name n))
                      nodes in
                  Resolved {| p_isAddress := false; p_isArea := false;
                              p_isHotelQuery := true;
                              address := None; area := Some area0;
                              p_nodes := hotels |}
              end
          end
        else fallback
    | None => fallback
    end
  else
    match lookupAreaByName spec with
    | inl err => Rejected err
    | inr (area0 :: _) =>
        match lookupNodesInArea (a_id area0) with
        | inl err => Rejected err
        | inr nodes =>
            Resolved {| p_isAddress := false; p_isArea := true; p_isHotelQuery := false;
                        address := None; area := Some area0; p_nodes := nodes |}
        end
    | inr [] =>
        let '(lat, lon) := geocodeAddressRaw spec in
        Resolved {| p_isAddress := true; p_isArea := false; p_isHotelQuery := false;
                    address := Some spec; area := None;
                    p_nodes := [createAddressNode spec lat lon] |}
    end.

End lookups.

End Place.
Import Place.

(* ===================================================================== *)
(** ** Vocabulary of the further properties *)
(* ===================================================================== *)

Module GraphVocabulary.

(** The offers attached to an edge, in the order of the offer table, and
    the timed arcs they give. *)
Definition offers_of (offers : list Offer) (e : EdgeLeg) : list Offer :=
  List.filter (fun o => bool_decide (edge_leg_id o = e_id e)) offers.

Definition arcs_of (offers : list Offer) (e : EdgeLeg) : list Leg :=
  map (fun o => {| edge_leg := e; offer := o |}) (offers_of offers e).



End GraphVocabulary.
Import GraphVocabulary.

Module SearchVocabulary.

(** A state as the seeding loop makes it: cost 0, no leg, a numeric node
    id, and none of the properties [createState] does not set. *)
Definition seeded (s : State) : Prop :=
  genCost s = Fin 0 /\ transfers s = Fin 0 /\ path s = []
  /\ genCostSoFar s = None /\ origin s = None
  /\ exists z, nodeId s = INum z.

(** States with finite costs in non-decreasing order. *)
Definition cost_le (a b : State) : Prop :=
  match genCost a, genCost b with
  | Fin x, Fin y => (x <= y)%R
  | _, _ => False
  end.

Definition finite_cost (s : State) : Prop := exists c, genCost s = Fin c.

End SearchVocabulary.
Import SearchVocabulary.

Module LoopVocabulary.

(** The invariant of the main loop, and what holds of a returned result. *)
Definition loop_inv (destSpec : PlaceSpec) (ls : LoopState) : Prop :=
  Forall seeded (ls_frontier ls)
  /\ (forall s, ls_bestState ls = Some s ->
                seeded s /\ isDestination s destSpec = Ret true)
  /\ (is_Some (ls_bestCost ls) -> is_Some (ls_bestState ls)).

Definition result_shape (destSpec : PlaceSpec) (r : SearchResult) : Prop :=
  (forall s, best_itinerary r = Some s ->
             seeded s /\ isDestination s destSpec = Ret true)
  /\ (search_status r = OK -> is_Some (best_itinerary r))
  /\ (search_status r = NO_FEASIBLE_ROUTE -> best_itinerary r = None).

End LoopVocabulary.
Import LoopVocabulary.

Module JsonVocabulary.

(** The value of property [k] of an object: the first field with that key. *)
Definition lookup_field (k : string) (fields : list (string * json)) : option json :=
  option_map snd (List.find (fun kv => String.eqb k (fst kv)) fields).

End JsonVocabulary.
Import JsonVocabulary.

Module PlaceVocabulary.

(** The sum of the code units of a string. *)
Definition code_sum (s : string) : Z :=
  fold_right (fun c a => (Z.of_nat (nat_of_ascii c) + a)%Z) 0%Z (list_ascii_of_string s).

(** A result whose only node is a synthetic address node. *)
Definition synthetic (p : Place) : Prop :=
  exists a, p_nodes p = [createAddressNode a (geocodeAddressRaw a).1 (geocodeAddressRaw a).2].

(** The filter of a hotel query. *)
Definition keeps_hotels (n : NodeRow) : bool :=
  String.eqb (kind n) NodeKind_HOTEL || test_hotel (n_name n).

(** How a call of [normalizePlaceSpec] can settle, given the two lookups. *)
Definition settles_well (select_areas : string -> string + list Area)
    (select_nodes : Z -> string + list NodeRow) (r : settled Place) : Prop :=
  match r with
  | Resolved p =>
      (p_isAddress p = true /\ p_isArea p = false /\ p_isHotelQuery p = false
       /\ area p = None
       /\ exists a, address p = Some a
                    /\ p_nodes p = [createAddressNode a (geocodeAddressRaw a).1
                                                      (geocodeAddressRaw a).2])
      \/ (p_isAddress p = false /\ p_isArea p = true /\ p_isHotelQuery p = false
          /\ address p = None
          /\ exists a, area p = Some a /\ select_nodes (a_id a) = inr (p_nodes p))
      \/ (p_isAddress p = false /\ p_isArea p = false /\ p_isHotelQuery p = true
          /\ address p = None
          /\ ((area p = None /\ synthetic p)
              \/ exists a nodes,
                   area p = Some a /\ select_nodes (a_id a) = inr nodes
                   /\ p_nodes p = List.filter keeps_hotels nodes))
  | Rejected err =>
      (exists q, select_areas q = inl err) \/ (exists i, select_nodes i = inl err)
  | Uncaught => False
  end.

End PlaceVocabulary.
Import PlaceVocabulary.

(* ===================================================================== *)
(** ** Further sample data *)
(* ===================================================================== *)


(** One parameters object written with its keys in two orders. *)
Definition two_keys : list (string * json) :=
  [("to", JString "ORD"); ("from", JString "IND")].

Definition two_keys_swapped : list (string * json) :=
  [("from", JString "IND"); ("to", JString "ORD")].


Definition plain_digest (s : string) : string := s.


(** A store without areas and nodes, and the address it resolves. *)
Definition no_areas (q : string) : string + list Area := inr [].

Definition no_nodes (i : Z) : string + list NodeRow := inr [].

Definition main_street : Place :=
  {| p_isAddress := true; p_isArea := false; p_isHotelQuery := false;
     address := Some "1 Main St"%string; area := None;
     p_nodes := [createAddressNode "1 Main St" (geocodeAddressRaw "1 Main St").1
                                   (geocodeAddressRaw "1 Main St").2] |}.

(* ===================================================================== *)
(** * Properties *)
(* ===================================================================== *)

(** ** Numbers *)

Lemma Rgeb_true x y : (x >= y)%R -> Rgeb x y = true.
Proof. intros H. unfold Rgeb. destruct (Rge_dec x y); [reflexivity | contradiction]. Qed.

Lemma Rgeb_false x y : (x < y)%R -> Rgeb x y = false.
Proof. intros H. unfold Rgeb. destruct (Rge_dec x y); [lra | reflexivity]. Qed.

Lemma Rgtb_true x y : (x > y)%R -> Rgtb x y = true.
Proof. intros H. unfold Rgtb. destruct (Rgt_dec x y); [reflexivity | contradiction]. Qed.

Lemma Rgtb_false x y : (x <= y)%R -> Rgtb x y = false.
Proof. intros H. unfold Rgtb. destruct (Rgt_dec x y); [lra | reflexivity]. Qed.

Lemma Rleb_true x y : (x <= y)%R -> Rleb x y = true.
Proof. intros H. unfold Rleb. destruct (Rle_dec x y); [reflexivity | contradiction]. Qed.

Lemma Rleb_false x y : (x > y)%R -> Rleb x y = false.
Proof. intros H. unfold Rleb. destruct (Rle_dec x y); [lra | reflexivity]. Qed.

Lemma Rltb_true x y : (x < y)%R -> Rltb x y = true.
Proof. intros H. unfold Rltb. destruct (Rlt_dec x y); [reflexivity | contradiction]. Qed.

Lemma Rltb_false x y : (x >= y)%R -> Rltb x y = false.
Proof. intros H. unfold Rltb. destruct (Rlt_dec x y); [lra | reflexivity]. Qed.

(** ** Generalized cost of a leg *)

Section leg_cost.

Local Open Scope R_scope.

Variable params : Params.

Let tv := default 20 (timeValuePerHour params).
Let tp := default 6 (transferPenalty params).
Let risk := default 0 (riskPenalty params).

(** C7.  For a partial path with generalized cost [g] and [t] transfers so
    far and a candidate leg, the evaluator returns
    [g + cash + timeValuePerHour * (durationMin / 60) + transferCost +
    riskCost], where [durationMin] is the offer's arrival minus its
    departure in minutes, [cash] is the offer price (0 when null) and
    [transferCost] is the transfer penalty exactly when [is_transfer] is 1
    (0 otherwise); the transfer count grows by one exactly when
    [is_transfer] is 1. *)
Theorem computeLegGeneralizedCost_formula (partial : State) (leg : Leg) (g t : R) :
  genCostSoFar partial = Some g ->
  transfersSoFar partial = Some t ->
  let c := computeLegGeneralizedCost partial leg params in
  let durationMin :=
    (IZR (arrival_time_utc (offer leg)) - IZR (departure_time_utc (offer leg)))
    / 60000 in
  let cash := match price_total (offer leg) with Some p => p | None => 0 end in
  exists transferCost : R,
    (is_transfer (edge_leg leg) = 1%Z ->
     transferCost = tp /\ newTransfers c = Fin (t + 1))
    /\ (is_transfer (edge_leg leg) <> 1%Z ->
        transferCost = 0 /\ newTransfers c = Fin (t + 0))
    /\ newGenCost c = Fin (g + cash + tv * (durationMin / 60) + transferCost + risk)
    /\ legDurationMin c = durationMin.
Proof.
  intros Hg Ht c durationMin cash.
  subst c. unfold computeLegGeneralizedCost, cash_of, minutesBetween.
  rewrite Hg, Ht. cbn [newGenCost newTransfers legDurationMin to_num nadd].
  fold tv tp risk.
  destruct (bool_decide_reflect (is_transfer (edge_leg leg) = 1%Z)) as [H1 | H1].
  - exists tp. repeat split; try reflexivity; intros; congruence.
  - exists 0. repeat split; try reflexivity; intros; congruence.
Qed.

End leg_cost.

Lemma computeLegGeneralizedCost_formula_witness :
  exists transferCost : R,
    newGenCost
      (computeLegGeneralizedCost (sample_partial 80 0 0)
         {| edge_leg := sample_edge 1 2 BUS 1;
            offer := sample_offer 0 7200000 (Some 20%R) |} no_params)
    = Fin (80 + 20 + 20 * ((IZR 7200000 - IZR 0) / 60000 / 60) + transferCost + 0)%R.
Proof.
  destruct (computeLegGeneralizedCost_formula no_params (sample_partial 80 0 0)
              {| edge_leg := sample_edge 1 2 BUS 1;
                 offer := sample_offer 0 7200000 (Some 20%R) |} 80%R 0%R
              eq_refl eq_refl) as (tc & _ & _ & H & _).
  exists tc. exact H.
Defined.

(** The first and third end-to-end scenarios: a 75-minute flight at 118
    costs 143; an 80 flight of 60 minutes followed by a 20 bus transfer of
    120 minutes costs 166. *)
Example direct_flight_costs_143 :
  path_cost no_params 0
    [{| edge_leg := sample_edge 1 2 FLIGHT 0;
        offer := sample_offer 28800000 33300000 (Some 118%R) |}]
  = Fin 143.
Proof.
  cbn [path_cost computeLegGeneralizedCost newGenCost to_num partial_with
       genCostSoFar nadd].
  unfold cash_of, minutesBetween. cbn.
  rewrite bool_decide_eq_false_2 by discriminate. f_equal. lra.
Qed.

Example flight_then_bus_transfer_costs_166 :
  path_cost no_params 0
    [{| edge_leg := sample_edge 1 3 FLIGHT 0;
        offer := sample_offer 0 3600000 (Some 80%R) |};
     {| edge_leg := sample_edge 3 2 BUS 1;
        offer := sample_offer 3600000 10800000 (Some 20%R) |}]
  = Fin 166.
Proof.
  cbn [path_cost computeLegGeneralizedCost newGenCost to_num partial_with
       genCostSoFar nadd].
  unfold cash_of, minutesBetween. cbn.
  rewrite bool_decide_eq_false_2 by discriminate.
  rewrite bool_decide_eq_true_2 by reflexivity. f_equal. lra.
Qed.

(** ** Graph assembly *)

Lemma push_Some (k : idval) (l : Leg) (adj : Adj) (ls : list Leg) :
  adj !! k = Some ls -> push k l adj = Ret (<[k := ls ++ [l]]> adj).
Proof. intros H. unfold push. rewrite H. reflexivity. Qed.

(** The inner-loop body on one ordered pair: three arcs for a pair that
    passes the test, nothing otherwise. *)
Lemma transfer_pair_near (clock : Clock) (r : R) (a b : Node) (t : nat) (adj : Adj)
    (old : list Leg) :
  near r a b = true ->
  adj !! id a = Some old ->
  transfer_pair clock r a b (t, adj)
  = Ret (S (S (S t)), <[id a := old ++ pair_arcs clock t a b]> adj).
Proof.
  intros Hn Hold. unfold near in Hn.
  apply andb_true_iff in Hn as [H1 H2].
  apply negb_true_iff in H1. apply negb_true_iff in H2.
  unfold transfer_pair. rewrite H1, H2.
  rewrite (push_Some _ _ _ _ Hold). cbn [bind].
  rewrite (push_Some _ _ _ (old ++ [generateWalkTransfer (clock t) a b]))
    by apply lookup_insert_eq.
  cbn [bind].
  rewrite (push_Some _ _ _
             ((old ++ [generateWalkTransfer (clock t) a b])
                ++ [generateRideshareTransfer (clock (S t)) a b DEFAULT_RIDESHARE_MODEL]))
    by apply lookup_insert_eq.
  cbn [bind]. rewrite !insert_insert_eq.
  unfold pair_arcs. rewrite <- !app_assoc. reflexivity.
Qed.

Lemma transfer_pair_skip (clock : Clock) (r : R) (a b : Node) (s : nat * Adj) :
  near r a b = false -> transfer_pair clock r a b s = Ret s.
Proof.
  intros Hn. unfold near in Hn. destruct s as [t adj]. unfold transfer_pair.
  destruct (strict_eq (id a) (id b)); [reflexivity |].
  destruct (Rgtb (distApprox a b) r); [reflexivity | discriminate].
Qed.

Lemma pair_modes_near (r : R) (a b : Node) :
  near r a b = true -> pair_modes r a b = [WALK; RIDESHARE; SHUTTLE].
Proof. intros H. unfold pair_modes. rewrite H. reflexivity. Qed.

Lemma pair_modes_far (r : R) (a b : Node) :
  near r a b = false -> pair_modes r a b = [].
Proof. intros H. unfold pair_modes. rewrite H. reflexivity. Qed.

Lemma arcs_at_insert_eq (adj : Adj) (k : idval) (ls : list Leg) :
  arcs_at (<[k := ls]> adj) k = ls.
Proof. unfold arcs_at. rewrite lookup_insert_eq. reflexivity. Qed.

Lemma arcs_at_insert_ne (adj : Adj) (k k' : idval) (ls : list Leg) :
  k <> k' -> arcs_at (<[k := ls]> adj) k' = arcs_at adj k'.
Proof. intros H. unfold arcs_at. rewrite lookup_insert_ne by exact H. reflexivity. Qed.

Lemma arcs_at_Some (adj : Adj) (k : idval) (ls : list Leg) :
  adj !! k = Some ls -> arcs_at adj k = ls.
Proof. intros H. unfold arcs_at. rewrite H. reflexivity. Qed.

(** The inner loop for a fixed [a]: the entry of [a] grows by the arcs of
    the pairs [(a, b)] that pass the test, in the order of [bs]; no other
    entry changes and no key appears or disappears. *)
Lemma inner_loop_arcs (clock : Clock) (r : R) (a : Node) (bs : list Node) :
  forall (t : nat) (adj : Adj),
    is_Some (adj !! id a) ->
    exists t' adj' new,
      for_of bs (fun b s => transfer_pair clock r a b s) (t, adj) = Ret (t', adj')
      /\ (forall k, is_Some (adj' !! k) <-> is_Some (adj !! k))
      /\ (forall k,
             arcs_at adj' k
             = arcs_at adj k ++ (if decide (id a = k) then new else []))
      /\ map leg_mode new = flat_map (pair_modes r a) bs
      /\ Forall (fun l => exists b t0,
                     In b bs /\ near r a b = true /\ In l (pair_arcs clock t0 a b))
                new.
Proof.
  induction bs as [| b bs IH]; intros t adj Ha.
  - exists t, adj, []. split; [reflexivity |]. split; [tauto |].
    split; [| split; [reflexivity | constructor]].
    intros k. destruct (decide (id a = k)); rewrite app_nil_r; reflexivity.
  - cbn [for_of]. destruct (near r a b) eqn:Hn.
    + destruct Ha as [old Hold].
      rewrite (transfer_pair_near _ _ _ _ _ _ _ Hn Hold). cbn [bind].
      destruct (IH (S (S (S t))) (<[id a := old ++ pair_arcs clock t a b]> adj))
        as (t' & adj' & new & Hrun & Hdom & Harcs & Hmodes & Hall).
      { rewrite lookup_insert_eq. eauto. }
      exists t', adj', (pair_arcs clock t a b ++ new).
      split; [exact Hrun |]. split; [| split; [| split]].
      * intros k. rewrite Hdom. destruct (decide (id a = k)) as [<- | Hne].
        -- rewrite lookup_insert_eq, Hold. split; eauto.
        -- rewrite lookup_insert_ne by exact Hne. tauto.
      * intros k. rewrite Harcs. destruct (decide (id a = k)) as [<- | Hne].
        -- rewrite arcs_at_insert_eq, (arcs_at_Some _ _ _ Hold).
           rewrite <- app_assoc. reflexivity.
        -- rewrite arcs_at_insert_ne by exact Hne. reflexivity.
      * rewrite map_app, Hmodes. cbn [flat_map].
        rewrite (pair_modes_near _ _ _ Hn). reflexivity.
      * apply Forall_app. split.
        -- apply Forall_forall. intros l Hl. apply list_elem_of_In in Hl.
           exists b, t. split; [left; reflexivity |]. split; assumption.
        -- eapply Forall_impl; [exact Hall |].
           intros l (b' & t0 & Hb' & Hn' & Hl). exists b', t0.
           split; [right; exact Hb' |]. split; assumption.
    + rewrite (transfer_pair_skip _ _ _ _ _ Hn). cbn [bind].
      destruct (IH t adj Ha) as (t' & adj' & new & Hrun & Hdom & Harcs & Hmodes & Hall).
      exists t', adj', new. split; [exact Hrun |]. split; [exact Hdom |].
      split; [exact Harcs |]. split.
      * rewrite Hmodes. cbn [flat_map]. rewrite (pair_modes_far _ _ _ Hn). reflexivity.
      * eapply Forall_impl; [exact Hall |].
        intros l (b' & t0 & Hb' & Hn' & Hl). exists b', t0.
        split; [right; exact Hb' |]. split; assumption.
Qed.

Lemma outer_loop_arcs (clock : Clock) (r : R) (bs : list Node) (as_ : list Node) :
  forall (t : nat) (adj : Adj),
    (forall a, In a as_ -> is_Some (adj !! id a)) ->
    exists t' adj',
      for_of as_
        (fun a s => for_of bs (fun b s => transfer_pair clock r a b s) s) (t, adj)
      = Ret (t', adj')
      /\ (forall k, is_Some (adj' !! k) <-> is_Some (adj !! k))
      /\ (forall k, exists new,
             arcs_at adj' k = arcs_at adj k ++ new
             /\ map leg_mode new
                = flat_map
                    (fun a =>
                       if decide (id a = k) then flat_map (pair_modes r a) bs else [])
                    as_
             /\ Forall (fun l => exists a b t0,
                            In a as_ /\ In b bs /\ id a = k /\ near r a b = true
                            /\ In l (pair_arcs clock t0 a b))
                       new).
Proof.
  induction as_ as [| a as_ IH]; intros t adj Hin.
  - exists t, adj. split; [reflexivity |]. split; [tauto |].
    intros k. exists []. rewrite app_nil_r. repeat split. constructor.
  - cbn [for_of].
    destruct (inner_loop_arcs clock r a bs t adj)
      as (t1 & adj1 & new1 & Hrun1 & Hdom1 & Harcs1 & Hmodes1 & Hall1).
    { apply Hin. left. reflexivity. }
    rewrite Hrun1. cbn [bind].
    destruct (IH t1 adj1) as (t' & adj' & Hrun & Hdom & Hk).
    { intros a' Ha'. apply Hdom1. apply Hin. right. exact Ha'. }
    exists t', adj'. split; [exact Hrun |]. split.
    + intros k. rewrite Hdom. apply Hdom1.
    + intros k. destruct (Hk k) as (new & Harcs & Hmodes & Hall).
      exists ((if decide (id a = k) then new1 else []) ++ new).
      split; [| split].
      * rewrite Harcs, Harcs1, <- app_assoc. reflexivity.
      * rewrite map_app, Hmodes. cbn [flat_map].
        destruct (decide (id a = k)); [rewrite Hmodes1 |]; reflexivity.
      * apply Forall_app. split.
        -- destruct (decide (id a = k)) as [Hak |]; [| constructor].
           eapply Forall_impl; [exact Hall1 |].
           intros l (b & t0 & Hb & Hn & Hl). exists a, b, t0.
           split; [left; reflexivity |]. repeat split; assumption.
        -- eapply Forall_impl; [exact Hall |].
           intros l (a' & b & t0 & Ha' & Hb & Hk' & Hn & Hl). exists a', b, t0.
           split; [right; exact Ha' |]. repeat split; assumption.
Qed.

Lemma near_spec (r : R) (a b : Node) :
  near r a b = true <-> id a <> id b /\ (distApprox a b <= r)%R.
Proof.
  unfold near, strict_eq. rewrite andb_true_iff, !negb_true_iff.
  rewrite bool_decide_eq_false. unfold Rgtb.
  destruct (Rgt_dec (distApprox a b) r); split; intros [H1 H2];
    split; try assumption; try discriminate; try reflexivity; lra.
Qed.

(** C6 (as the code has it).  During graph assembly, for every ordered pair
    of nodes (a, b) with different ids whose planar distance
    [sqrt (dlat^2 + dlon^2) * 111] is at most the radius, exactly three
    synthesized arcs (walk, rideshare, shuttle, in this order) are appended
    to the adjacency entry of a; for every other ordered pair none are.  The
    test is on the planar distance, not on the haversine distance.  In the
    statement, [new] is what the entry of key [k] has gained: its modes are
    the three modes once per passing pair, in the order of the loops, and
    each of its arcs is a transfer generated for such a pair. *)
Theorem addTransferEdges_appends (clock : Clock) (nodes : list Node) (r : R)
    (t : nat) (adj : Adj) :
  (forall a, In a nodes -> is_Some (adj !! id a)) ->
  (forall a b, near r a b = true <-> id a <> id b /\ (distApprox a b <= r)%R)
  /\ exists t' adj',
      addTransferEdges clock nodes r (t, adj) = Ret (t', adj')
      /\ forall k, exists new,
          arcs_at adj' k = arcs_at adj k ++ new
          /\ map leg_mode new
             = flat_map
                 (fun a =>
                    if decide (id a = k) then
                      flat_map
                        (fun b => if near r a b then [WALK; RIDESHARE; SHUTTLE] else [])
                        nodes
                    else [])
                 nodes
          /\ Forall (synthesized clock r nodes k) new.
Proof.
  intros Hin. split; [apply near_spec |].
  destruct (outer_loop_arcs clock r nodes nodes t adj Hin)
    as (t' & adj' & Hrun & _ & Hk).
  exists t', adj'. split; [exact Hrun | exact Hk].
Qed.

Lemma empty_entries_pole :
  forall a, In a [pole_a; pole_b] -> is_Some (empty_entries [pole_a; pole_b] !! id a).
Proof.
  intros a [<- | [<- | []]]; unfold empty_entries; cbn.
  - rewrite lookup_insert_ne by discriminate. rewrite lookup_insert_eq. eauto.
  - rewrite lookup_insert_eq. eauto.
Qed.

Lemma addTransferEdges_appends_witness :
  exists t' adj',
    addTransferEdges ticking_clock [pole_a; pole_b] 3 (O, empty_entries [pole_a; pole_b])
    = Ret (t', adj').
Proof.
  destruct (addTransferEdges_appends ticking_clock [pole_a; pole_b] 3 O
              (empty_entries [pole_a; pole_b]) empty_entries_pole)
    as (_ & t' & adj' & H & _).
  exists t', adj'. exact H.
Defined.

Lemma haversine_pole : node_distance pole_a pole_b = 0%R.
Proof.
  unfold node_distance, haversine, toRad, pole_a, pole_b, mk_node. cbn [lat lon].
  replace (90 * PI / 180)%R with (PI / 2)%R by lra.
  replace ((90 - 90) * PI / 180 / 2)%R with 0%R by lra.
  rewrite sin_0, cos_PI2.
  replace (0 ^ 2 + 0 * 0 * sin ((180 - 0) * PI / 180 / 2) ^ 2)%R with 0%R by lra.
  rewrite sqrt_0. replace (1 - 0)%R with 1%R by lra. rewrite sqrt_1.
  unfold atan2. rewrite Rgtb_true by lra.
  replace (0 / 1)%R with 0%R by lra. rewrite atan_0. lra.
Qed.

Lemma distApprox_pole_ab : distApprox pole_a pole_b = 19980%R.
Proof.
  unfold distApprox, pole_a, pole_b, mk_node. cbn [lat lon].
  replace ((90 - 90) * (90 - 90) + (0 - 180) * (0 - 180))%R with (180 * 180)%R by lra.
  rewrite sqrt_square by lra. lra.
Qed.

Lemma distApprox_pole_ba : distApprox pole_b pole_a = 19980%R.
Proof.
  unfold distApprox, pole_a, pole_b, mk_node. cbn [lat lon].
  replace ((90 - 90) * (90 - 90) + (180 - 0) * (180 - 0))%R with (180 * 180)%R by lra.
  rewrite sqrt_square by lra. lra.
Qed.

Lemma near_same_id (r : R) (a b : Node) : id a = id b -> near r a b = false.
Proof.
  intros H. unfold near, strict_eq. rewrite bool_decide_eq_true_2 by exact H.
  reflexivity.
Qed.

Lemma near_too_far (r : R) (a b : Node) : (distApprox a b > r)%R -> near r a b = false.
Proof.
  intros H. unfold near. rewrite (Rgtb_true _ _ H). apply andb_false_r.
Qed.

(** C6 as stated fails: two nodes with different ids at haversine distance
    0 (both at the pole) get no transfer arc, because their planar distance
    is 19980 km. *)
Lemma haversine_pair_without_arcs :
  id pole_a <> id pole_b
  /\ (node_distance pole_a pole_b <= 3)%R
  /\ addTransferEdges ticking_clock [pole_a; pole_b] 3
       (O, empty_entries [pole_a; pole_b])
     = Ret (O, empty_entries [pole_a; pole_b])
  /\ modes_at (empty_entries [pole_a; pole_b]) (id pole_a) = [].
Proof.
  split; [discriminate |]. split; [rewrite haversine_pole; lra |].
  split; [| reflexivity].
  unfold addTransferEdges. cbn [for_of].
  rewrite (transfer_pair_skip _ _ pole_a pole_a) by (apply near_same_id; reflexivity).
  cbn [bind].
  rewrite (transfer_pair_skip _ _ pole_a pole_b)
    by (apply near_too_far; rewrite distApprox_pole_ab; lra).
  cbn [bind].
  rewrite (transfer_pair_skip _ _ pole_b pole_a)
    by (apply near_too_far; rewrite distApprox_pole_ba; lra).
  cbn [bind].
  rewrite (transfer_pair_skip _ _ pole_b pole_b) by (apply near_same_id; reflexivity).
  reflexivity.
Qed.

(** ** The lower bound *)

Section lower_bound.

Local Open Scope R_scope.

Variable params : Params.

Let tv := default 20 (timeValuePerHour params).


Lemma distApprox_nonneg (u v : Node) : 0 <= distApprox u v.
Proof.
  unfold distApprox. apply Rmult_le_pos; [apply sqrt_pos | lra].
Qed.

Lemma estimateLowerBound_nodes (u d : Node) :
  estimateLowerBound (Some (node_coords u)) (Some (node_coords d)) params
  = Ret (Fin (tv * (distApprox u d / 700))).
Proof. reflexivity. Qed.

End lower_bound.

Lemma distApprox_far : distApprox far_u far_d = 1110%R.
Proof.
  unfold distApprox, far_u, far_d, mk_node. cbn [lat lon].
  replace ((60 - 60) * (60 - 60) + (0 - 10) * (0 - 10))%R with (10 * 10)%R by lra.
  rewrite sqrt_square by lra. lra.
Qed.

Lemma distApprox_far_back : distApprox far_d far_u = 1110%R.
Proof.
  unfold distApprox, far_u, far_d, mk_node. cbn [lat lon].
  replace ((60 - 60) * (60 - 60) + (10 - 0) * (10 - 0))%R with (10 * 10)%R by lra.
  rewrite sqrt_square by lra. lra.
Qed.

Lemma buildAdjacency_flight (l : Leg) :
  e_id (edge_leg l) = INum 1 ->
  edge_leg_id (offer l) = INum 1 ->
  origin_node_id (edge_leg l) = INum 1 ->
  buildAdjacency [far_u; far_d] [edge_leg l] [offer l]
  = Ret (<[INum 1 := [{| edge_leg := edge_leg l; offer := offer l |}]]>
           (empty_entries [far_u; far_d])).
Proof.
  intros He Ho Hfrom. unfold buildAdjacency, group_offers. cbn [fold_left for_of].
  rewrite He, Ho, Hfrom. rewrite lookup_empty. cbn [default].
  rewrite lookup_insert_eq. unfold default, from_option, Datatypes.id.
  cbn [for_of bind app]. unfold push. cbn [far_u far_d mk_node id].
  rewrite lookup_insert_ne by discriminate. rewrite lookup_insert_eq.
  reflexivity.
Qed.

Lemma addTransferEdges_far (clock : Clock) (s : nat * Adj) :
  addTransferEdges clock [far_u; far_d] 3 s = Ret s.
Proof.
  unfold addTransferEdges. cbn [for_of].
  rewrite (transfer_pair_skip _ _ far_u far_u) by (apply near_same_id; reflexivity).
  cbn [bind].
  rewrite (transfer_pair_skip _ _ far_u far_d)
    by (apply near_too_far; rewrite distApprox_far; lra).
  cbn [bind].
  rewrite (transfer_pair_skip _ _ far_d far_u)
    by (apply near_too_far; rewrite distApprox_far_back; lra).
  cbn [bind].
  rewrite (transfer_pair_skip _ _ far_d far_d) by (apply near_same_id; reflexivity).
  reflexivity.
Qed.

Lemma buildGraph_flight (clock : Clock) (l : Leg) :
  e_id (edge_leg l) = INum 1 ->
  edge_leg_id (offer l) = INum 1 ->
  origin_node_id (edge_leg l) = INum 1 ->
  buildGraph clock O (flight_db l)
  = Ret (O, flight_graph {| edge_leg := edge_leg l; offer := offer l |}).
Proof.
  intros He Ho Hfrom. unfold buildGraph, flight_db.
  cbn [db_nodes db_edges db_offers].
  rewrite (buildAdjacency_flight l He Ho Hfrom). cbn [bind].
  rewrite addTransferEdges_far. reflexivity.
Qed.

(** ** Dominance *)

Lemma nle_Fin (p c : R) : nle (Fin p) (Fin c) = true <-> (p <= c)%R.
Proof.
  cbn. unfold Rleb. destruct (Rle_dec p c); split; intros H;
    try reflexivity; try assumption; try discriminate; contradiction.
Qed.

(** C4 (as the code has it).  A newly generated state is dropped exactly
    when a cost is already recorded for its key (nodeId, 5-minute arrival
    bucket) and that cost is less than or equal to the genCost of the state:
    a state whose genCost equals the recorded best is dropped, and a dropped
    state never costs less than the recorded one.  A dropped state leaves
    the table unchanged; any other state has its cost recorded. *)
Theorem isDominated_drops_on_recorded_le (s : State) (m : DomMap) :
  let key := (nodeId s, (arrivalTimeUtc s / 300000)%Z) in
  (fst (isDominated s m) = true
   <-> exists prev, m !! key = Some prev /\ nle prev (genCost s) = true)
  /\ (forall p c : R,
        m !! key = Some (Fin p) -> genCost s = Fin c ->
        (fst (isDominated s m) = true <-> (p <= c)%R))
  /\ (fst (isDominated s m) = true -> snd (isDominated s m) = m)
  /\ (fst (isDominated s m) = false ->
      snd (isDominated s m) = <[key := genCost s]> m).
Proof.
  intros key.
  assert (Hkey : makeDominanceKey (nodeId s) (arrivalTimeUtc s) = key) by reflexivity.
  unfold isDominated. rewrite Hkey.
  destruct (m !! key) as [prev |] eqn:Hm.
  - destruct (nle prev (genCost s)) eqn:Hle; cbn [fst snd].
    + repeat split; try reflexivity; try discriminate; eauto.
      * intros _. inversion H; subst. rewrite H0 in Hle.
        apply nle_Fin. exact Hle.
    + repeat split; try reflexivity; try discriminate.
      * intros (prev' & Hp & Hle'). inversion Hp; subst. congruence.
      * intros Hpc. inversion H; subst. rewrite H0 in Hle.
        apply nle_Fin in Hpc. congruence.
  - cbn [fst snd]. repeat split; try reflexivity; try discriminate.
    intros (prev & Hp & _). discriminate.
Qed.

(** C4 as stated fails: of two states generated for the same key with the
    same cost 50, the second is dropped although its genCost equals the
    recorded best, so the survivor is not strictly cheaper. *)
Lemma equal_cost_state_is_dropped :
  makeDominanceKey (nodeId first_at_7) (arrivalTimeUtc first_at_7)
  = makeDominanceKey (nodeId second_at_7) (arrivalTimeUtc second_at_7)
  /\ genCost second_at_7 = genCost first_at_7
  /\ fst (isDominated first_at_7 ∅) = false
  /\ fst (isDominated second_at_7 (snd (isDominated first_at_7 ∅))) = true.
Proof.
  split; [reflexivity |]. split; [reflexivity |]. split; [reflexivity |].
  unfold isDominated at 1.
  replace (makeDominanceKey (nodeId second_at_7) (arrivalTimeUtc second_at_7))
    with (makeDominanceKey (nodeId first_at_7) (arrivalTimeUtc first_at_7))
    by reflexivity.
  unfold isDominated. rewrite lookup_empty. cbn [snd].
  rewrite lookup_insert_eq. cbn [genCost second_at_7 first_at_7 createState nle].
  rewrite Rleb_true by lra. reflexivity.
Qed.

(** ** Successor generation *)

Lemma computeLegGeneralizedCost_with_arrival (state : State) (arrival : Z) (leg : Leg)
    (params : Params) :
  computeLegGeneralizedCost (with_arrival state arrival) leg params
  = computeLegGeneralizedCost state leg params.
Proof. reflexivity. Qed.

Lemma shouldPrune_with_arrival (state : State) (arrival : Z) (leg : Leg)
    (bestCost : option num) (destNode : option Coords) (params : Params) :
  shouldPrune (with_arrival state arrival) leg bestCost destNode params
  = shouldPrune state leg bestCost destNode params.
Proof. reflexivity. Qed.

Lemma isDominated_empty (s : State) :
  isDominated s ∅
  = (false, {[ makeDominanceKey (nodeId s) (arrivalTimeUtc s) := genCost s ]}).
Proof. unfold isDominated. rewrite lookup_empty. reflexivity. Qed.

(** ** The search loop *)

(** A state object made by [createState] has no [origin], so the detour
    step of [shouldPrune] cannot read [partial.origin.lat]; and it has no
    [genCostSoFar], so the two tests before that step never return. *)
Lemma shouldPrune_without_origin (partial : State) (leg : Leg) (bestCost : option num)
    (destNode : option Coords) (params : Params) :
  genCostSoFar partial = None ->
  origin partial = None ->
  shouldPrune partial leg bestCost destNode params = Throw TypeError.
Proof.
  intros Hg Ho. unfold shouldPrune, computeLegGeneralizedCost.
  rewrite Hg, Ho. cbn [newGenCost to_num nadd].
  assert (Hr : reaches NaN bestCost = false) by (destruct bestCost; reflexivity).
  unfold estimateLowerBound. cbn [deref bind].
  destruct destNode as [d |]; cbn [deref bind reaches nge] in *.
  - destruct bestCost; reflexivity.
  - destruct bestCost; reflexivity.
Qed.

Lemma shouldPrune_createState (n : idval) (arrival : Z) (g t : num) (p : list Leg)
    (leg : Leg) (bestCost : option num) (destNode : option Coords) (params : Params) :
  shouldPrune (createState n arrival g t p) leg bestCost destNode params
  = Throw TypeError.
Proof. apply shouldPrune_without_origin; reflexivity. Qed.

Lemma expand_leg_without_origin (graph : GraphT) (destSpec : PlaceSpec)
    (params : Params) (state : State) (bestCost : option num) (leg : Leg)
    (s : DomMap * list State) :
  genCostSoFar state = None ->
  origin state = None ->
  expand_leg graph destSpec params state bestCost leg s = Throw TypeError.
Proof.
  intros Hg Ho. unfold expand_leg. destruct s as [m f].
  destruct (head (destNodes destSpec)) as [d0 |]; cbn [deref bind]; [| reflexivity].
  rewrite (shouldPrune_without_origin _ _ _ _ _ Hg Ho). reflexivity.
Qed.


(** An iteration that pops a state without [origin] which is not a
    destination and has an outgoing arc ends in a TypeError. *)
Lemma iteration_throws_on_outgoing (clock : Clock) (graph : GraphT)
    (destSpec : PlaceSpec) (params : Params) (startTime : Z) (ls : LoopState)
    (state : State) (rest : list State) (leg : Leg) (legs : list Leg) :
  (clock (ls_clock ls) - startTime >? default 5000 (timeoutMs params))%Z = false ->
  (Z.of_nat (ls_expansions ls) >? default 100000 (maxExpansions params))%Z = false ->
  sort_frontier (ls_frontier ls) = state :: rest ->
  genCostSoFar state = None ->
  origin state = None ->
  isDestination state destSpec = Ret false ->
  adj graph !! nodeId state = Some (leg :: legs) ->
  iteration clock graph destSpec params startTime ls = Throw TypeError.
Proof.
  intros Ht He Hsort Hg Ho Hdest Hadj. unfold iteration.
  rewrite Ht, He, Hsort. cbn [head deref bind tail]. rewrite Hdest. cbn [bind].
  rewrite Hadj. unfold default, from_option, Datatypes.id. cbn [for_of].
  rewrite (expand_leg_without_origin _ _ _ _ _ _ _ Hg Ho). reflexivity.
Qed.

(** Leaving the loop through an empty frontier always reports
    NO_FEASIBLE_ROUTE with no itinerary, whatever best state was found. *)
Lemma main_loop_drained (clock : Clock) (graph : GraphT) (destSpec : PlaceSpec)
    (params : Params) (fuel : nat) (startTime : Z) (ls : LoopState) :
  ls_frontier ls = [] ->
  main_loop clock graph destSpec params fuel startTime ls
  = Some (Ret {| search_status := NO_FEASIBLE_ROUTE;
                 best_itinerary := None;
                 expansions := ls_expansions ls |}).
Proof. intros H. destruct fuel; cbn [main_loop]; rewrite H; reflexivity. Qed.

Lemma buildAdjacency_nodes_only (ns : list Node) :
  buildAdjacency ns [] [] = Ret (empty_entries ns).
Proof. reflexivity. Qed.

Lemma distApprox_near_ab : distApprox near_a near_b = (111 / 100)%R.
Proof.
  unfold distApprox, near_a, near_b, mk_node. cbn [lat lon].
  replace ((0 - 0) * (0 - 0) + (0 - 1 / 100) * (0 - 1 / 100))%R
    with ((1 / 100) * (1 / 100))%R by lra.
  rewrite sqrt_square by lra. lra.
Qed.

Lemma distApprox_near_ba : distApprox near_b near_a = (111 / 100)%R.
Proof.
  unfold distApprox, near_a, near_b, mk_node. cbn [lat lon].
  replace ((0 - 0) * (0 - 0) + (1 / 100 - 0) * (1 / 100 - 0))%R
    with ((1 / 100) * (1 / 100))%R by lra.
  rewrite sqrt_square by lra. lra.
Qed.

Lemma near_pair (r : R) (a b : Node) :
  id a <> id b -> (distApprox a b <= r)%R -> near r a b = true.
Proof. intros H1 H2. apply near_spec. split; assumption. Qed.

Lemma buildGraph_near (clock : Clock) :
  buildGraph clock O (nodes_only [near_a; near_b]) = Ret (6%nat, near_graph clock).
Proof.
  unfold buildGraph, nodes_only. cbn [db_nodes db_edges db_offers].
  rewrite buildAdjacency_nodes_only. cbn [bind].
  unfold addTransferEdges. cbn [for_of].
  rewrite (transfer_pair_skip _ _ near_a near_a) by (apply near_same_id; reflexivity).
  cbn [bind].
  rewrite (transfer_pair_near _ _ near_a near_b _ _ [])
    by first [ apply near_pair; [discriminate | rewrite distApprox_near_ab; lra]
             | reflexivity ].
  cbn [bind].
  rewrite (transfer_pair_near _ _ near_b near_a _ _ [])
    by first [ apply near_pair; [discriminate | rewrite distApprox_near_ba; lra]
             | reflexivity ].
  cbn [bind].
  rewrite (transfer_pair_skip _ _ near_b near_b) by (apply near_same_id; reflexivity).
  reflexivity.
Qed.

(** ** The lower bound against true costs *)

(** With rows as the migration names their columns, [e.origin_node_id] is
    undefined and the first offer of an edge makes [buildAdjacency] throw:
    a graph that is assembled has no scheduled arc. *)
Lemma buildGraph_table_edge_throws (clock : Clock) (o : Offer) :
  edge_leg_id o = INum 1 ->
  buildGraph clock O
    {| db_nodes := [far_u; far_d]; db_edges := [table_edge 1 2 FLIGHT 0];
       db_offers := [o] |}
  = Throw TypeError.
Proof.
  intros Ho. unfold buildGraph, buildAdjacency, group_offers.
  cbn [db_nodes db_edges db_offers fold_left for_of].
  rewrite Ho. rewrite lookup_empty. cbn [default].
  cbn [e_id table_edge]. rewrite lookup_insert_eq.
  unfold default, from_option, Datatypes.id.
  cbn [for_of bind app]. unfold push. cbn [origin_node_id far_u far_d mk_node id].
  rewrite !lookup_insert_ne by discriminate. rewrite lookup_empty. reflexivity.
Qed.


(** ** Runs of the search *)

(** C1 fails on the code: on the graph assembled from two stations 1.11 km
    apart, a search from the first to the second pops the seed state, finds
    its three transfer arcs and calls [shouldPrune] on the first, whose
    detour step reads [partial.origin.lat] on a state that has no [origin]:
    the search ends in a TypeError instead of returning a status. *)
Theorem search_throws_at_first_transfer (random : nat -> Z) (fuel : nat) :
  searchItinerariesDoorToDoor ticking_clock random (nodes_only [near_a; near_b])
    (area_of [near_a]) (area_of [near_b]) no_params (S fuel)
  = Some (Throw TypeError).
Proof.
  unfold searchItinerariesDoorToDoor. rewrite buildGraph_near.
  unfold search_from. cbn [spec_nodes area_of fold_left seed].
  cbn [near_a mk_node id is_nullish app].
  cbn [main_loop ls_frontier].
  erewrite iteration_throws_on_outgoing; reflexivity.
Qed.

Lemma buildGraph_single (clock : Clock) (n : Node) :
  buildGraph clock O (nodes_only [n])
  = Ret (O, {| nodes := [n]; adj := empty_entries [n] |}).
Proof.
  unfold buildGraph, nodes_only. cbn [db_nodes db_edges db_offers].
  rewrite buildAdjacency_nodes_only. cbn [bind].
  unfold addTransferEdges. cbn [for_of].
  rewrite (transfer_pair_skip _ _ n n) by (apply near_same_id; reflexivity).
  reflexivity.
Qed.

(** C2 fails on the code: when the only origin node is itself the
    destination, the search records it as best state, finds the frontier
    empty and leaves the loop, and the statement after the loop returns
    NO_FEASIBLE_ROUTE without itinerary; the claim says OK with an empty leg
    list and cost 0. *)
Theorem search_forgets_best_when_drained (random : nat -> Z) (fuel : nat) :
  isDestination (createState (id far_u) (ticking_clock 1) (Fin 0) (Fin 0) [])
    (area_of [far_u]) = Ret true
  /\ searchItinerariesDoorToDoor ticking_clock random (nodes_only [far_u])
       (area_of [far_u]) (area_of [far_u]) no_params (S fuel)
     = Some (Ret {| search_status := NO_FEASIBLE_ROUTE;
                    best_itinerary := None;
                    expansions := 1 |}).
Proof.
  split; [reflexivity |].
  unfold searchItinerariesDoorToDoor. rewrite buildGraph_single.
  unfold search_from. cbn [spec_nodes area_of fold_left seed].
  cbn [far_u mk_node id is_nullish app].
  cbn [main_loop ls_frontier].
  replace (iteration ticking_clock _ _ _ _ _)
    with (Ret (inr {| ls_clock := 3; ls_frontier := []; ls_dominance := ∅;
                      ls_bestCost := Some (Fin 0);
                      ls_bestState :=
                        Some (createState (INum 1) (ticking_clock 1) (Fin 0) (Fin 0) []);
                      ls_expansions := 1 |})
            : exn (SearchResult + LoopState))
    by reflexivity.
  apply main_loop_drained. reflexivity.
Qed.

Lemma buildGraph_far (clock : Clock) :
  buildGraph clock O (nodes_only [far_u; far_d])
  = Ret (O, {| nodes := [far_u; far_d]; adj := empty_entries [far_u; far_d] |}).
Proof.
  unfold buildGraph, nodes_only. cbn [db_nodes db_edges db_offers].
  rewrite buildAdjacency_nodes_only. cbn [bind].
  rewrite addTransferEdges_far. reflexivity.
Qed.

(** C5 fails on the code: with [maxExpansions = 0] the test
    [expansions > maxExpansions] is false on the first iteration, so the
    seed state is popped and expanded; here the frontier is then empty and
    the search returns NO_FEASIBLE_ROUTE after one expansion, where the
    claim says TIME_BUDGET_EXHAUSTED with no state expanded. *)
Theorem search_expands_once_with_budget_zero (random : nat -> Z) (fuel : nat) :
  searchItinerariesDoorToDoor ticking_clock random (nodes_only [far_u; far_d])
    (area_of [far_u]) (area_of [far_d]) budget_zero (S fuel)
  = Some (Ret {| search_status := NO_FEASIBLE_ROUTE;
                 best_itinerary := None;
                 expansions := 1 |}).
Proof.
  unfold searchItinerariesDoorToDoor. rewrite buildGraph_far.
  unfold search_from. cbn [spec_nodes area_of fold_left seed].
  cbn [far_u mk_node id is_nullish app].
  cbn [main_loop ls_frontier].
  replace (iteration ticking_clock _ _ _ _ _)
    with (Ret (inr {| ls_clock := 3; ls_frontier := []; ls_dominance := ∅;
                      ls_bestCost := None; ls_bestState := None;
                      ls_expansions := 1 |})
            : exn (SearchResult + LoopState))
    by reflexivity.
  apply main_loop_drained. reflexivity.
Qed.

Lemma seed_persisted (clock : Clock) (random : nat -> Z) (n : Node) (z : Z)
    (t r : nat) (frontier : list State) :
  id n = INum z ->
  seed clock random n (t, r, frontier)
  = (S t, r, frontier ++ [createState (INum z) (clock t) (Fin 0) (Fin 0) []]).
Proof. intros H. unfold seed. rewrite H. reflexivity. Qed.

Lemma sort_frontier_two_seeds (n1 n2 : idval) (t1 t2 : Z) :
  sort_frontier [createState n1 t1 (Fin 0) (Fin 0) []; createState n2 t2 (Fin 0) (Fin 0) []]
  = [createState n1 t1 (Fin 0) (Fin 0) []; createState n2 t2 (Fin 0) (Fin 0) []].
Proof.
  unfold sort_frontier. cbn [fold_left insert_by_cost genCost createState nsub ngt].
  rewrite Rgtb_false by lra. reflexivity.
Qed.

(** With [maxExpansions = 0] the search can even return OK with an
    itinerary: the first origin node is popped and found to be a
    destination, and the early-stop test fires on the second. *)
Lemma search_returns_OK_with_budget_zero (random : nat -> Z) (fuel : nat) :
  searchItinerariesDoorToDoor ticking_clock random (nodes_only [far_u; far_d])
    (area_of [far_u; far_d]) (area_of [far_u]) budget_zero (S fuel)
  = Some (Ret {| search_status := OK;
                 best_itinerary :=
                   Some (createState (INum 1) (ticking_clock 1) (Fin 0) (Fin 0) []);
                 expansions := 1 |}).
Proof.
  unfold searchItinerariesDoorToDoor. rewrite buildGraph_far.
  unfold search_from. cbn [spec_nodes area_of fold_left].
  rewrite (seed_persisted _ _ far_u 1) by reflexivity.
  rewrite (seed_persisted _ _ far_d 2) by reflexivity.
  cbn [app main_loop ls_frontier].
  unfold iteration. cbn [ls_clock ls_expansions ls_frontier ls_bestCost ls_bestState].
  replace (ticking_clock 3 - ticking_clock 0 >? default 5000 (timeoutMs budget_zero))%Z
    with false by reflexivity.
  replace (Z.of_nat 0 >? default 100000 (maxExpansions budget_zero))%Z
    with false by reflexivity.
  rewrite sort_frontier_two_seeds. cbn [head tail deref bind].
  replace (isDestination _ _) with (Ret true : exn bool) by reflexivity.
  cbn [bind genCost createState nodeId].
  replace (head (destNodes (area_of [far_u]))) with (Some far_u) by reflexivity.
  cbn [deref bind].
  replace (node_at _ (INum 2)) with (Some (node_coords far_d)) by reflexivity.
  replace (node_at _ (id far_u)) with (Some (node_coords far_u)) by reflexivity.
  rewrite estimateLowerBound_nodes. cbn [bind nadd nge].
  rewrite Rgeb_true; [reflexivity |].
  rewrite distApprox_far_back. cbn. lra.
Qed.

(** ** The API cache *)

Section cache_properties.

Variable sha256_hex : string -> string.
Variable json_parse : string -> option json.

(** The array replacer orders the keys of the object and keeps a nested key
    that is also a top-level key. *)
Example stringify_sorts_top_level_keys :
  stringify (Some (sort_keys (object_keys [("b", JNumber 1); ("a", JNumber 2)])))
    (JObject [("b", JNumber 1); ("a", JNumber 2)])
  = ("{" ++ quote "a" ++ ":2," ++ quote "b" ++ ":1}")%string.
Proof. reflexivity. Qed.

Example stringify_keeps_shared_nested_key :
  stringify (Some (sort_keys (object_keys [("b", JObject [("b", JNumber 1); ("c", JNumber 2)])])))
    (JObject [("b", JObject [("b", JNumber 1); ("c", JNumber 2)])])
  = ("{" ++ quote "b" ++ ":{" ++ quote "b" ++ ":1}}")%string.
Proof. reflexivity. Qed.

(** C9 fails on the code: the sorted key list is passed to [JSON.stringify]
    as an array replacer, which filters the keys of every nested object as
    well, so a nested key that is not also a top-level key is left out.
    Two parameter objects that differ in the nested value [max_price] get
    the same serialization, hence the same hash. *)
Theorem canonicalHash_drops_nested_keys :
  params_100 <> params_200
  /\ stringify (Some (sort_keys (object_keys params_100))) (JObject params_100)
     = ("{" ++ quote "filters" ++ ":{}," ++ quote "origin" ++ ":" ++ quote "NYC" ++ "}")%string
  /\ stringify (Some (sort_keys (object_keys params_200))) (JObject params_200)
     = stringify (Some (sort_keys (object_keys params_100))) (JObject params_100)
  /\ canonicalHash sha256_hex params_200 = canonicalHash sha256_hex params_100.
Proof.
  split; [discriminate |]. split; [reflexivity |]. split; reflexivity.
Qed.







End cache_properties.


(* ===================================================================== *)
(** * Further properties *)
(* ===================================================================== *)

(** ** Generalized cost, lower bound and pruning *)

Section cost_extras.

Local Open Scope R_scope.

Variable params : Params.
Let tv := default 20 (timeValuePerHour params).
Let tp := default 6 (transferPenalty params).
Let risk := default 0 (riskPenalty params).

(** X1.  A leg never lowers the generalized cost: when the time value and
    the two penalties are not negative, the price of the offer is not
    negative and the offer does not arrive before it departs, the new cost
    is a finite number that is at least the cost so far. *)
Theorem leg_cost_not_below_partial (partial : State) (leg : Leg) (g : R) :
  genCostSoFar partial = Some g ->
  0 <= tv -> 0 <= tp -> 0 <= risk ->
  0 <= cash_of (offer leg) ->
  (departure_time_utc (offer leg) <= arrival_time_utc (offer leg))%Z ->
  exists c, newGenCost (computeLegGeneralizedCost partial leg params) = Fin c /\ g <= c.
Proof.
  intros Hg Htv Htp Hrisk Hcash Htime.
  unfold computeLegGeneralizedCost. rewrite Hg.
  cbn [newGenCost to_num nadd]. fold tv tp risk.
  eexists. split; [reflexivity |].
  set (tc := if bool_decide _ then tp else 0).
  assert (0 <= tc) by (subst tc; destruct (bool_decide _); lra).
  assert (0 <= minutesBetween (departure_time_utc (offer leg))
                              (arrival_time_utc (offer leg)) / 60).
  { unfold minutesBetween. apply IZR_le in Htime. lra. }
  assert (0 <= tv * (minutesBetween (departure_time_utc (offer leg))
                                    (arrival_time_utc (offer leg)) / 60))
    by (apply Rmult_le_pos; assumption).
  lra.
Qed.

End cost_extras.

Section lb_extras.

Local Open Scope R_scope.

Variable params : Params.
Let tv := default 20 (timeValuePerHour params).

Lemma distApprox_sym (a b : Node) : distApprox a b = distApprox b a.
Proof. unfold distApprox. f_equal. f_equal. ring. Qed.

(** X3.  Between nodes, with a time value that is not negative, the lower
    bound is a finite number that is not negative, is the same in both
    directions, and is 0 when the two nodes have the same coordinates. *)
Theorem estimateLowerBound_symmetric (u d : Node) :
  0 <= tv ->
  exists lb : R,
    estimateLowerBound (Some (node_coords u)) (Some (node_coords d)) params = Ret (Fin lb)
    /\ estimateLowerBound (Some (node_coords d)) (Some (node_coords u)) params
       = Ret (Fin lb)
    /\ 0 <= lb
    /\ (lat u = lat d -> lon u = lon d -> lb = 0).
Proof.
  intros Htv. exists (tv * (distApprox u d / 700)).
  rewrite !estimateLowerBound_nodes. fold tv.
  split; [reflexivity |]. split; [rewrite (distApprox_sym d u); reflexivity |].
  pose proof (distApprox_nonneg u d) as H0.
  split; [apply Rmult_le_pos; [exact Htv | lra] |].
  intros Hlat Hlon. unfold distApprox. rewrite Hlat, Hlon.
  replace ((lat d - lat d) * (lat d - lat d) + (lon d - lon d) * (lon d - lon d))
    with 0 by lra.
  rewrite sqrt_0. lra.
Qed.

(** X4.  The two ways [estimateLowerBound] fails: it throws a TypeError
    exactly when one of its two places is undefined, and, given two places,
    it returns NaN exactly when one of the four coordinates is missing. *)
Theorem estimateLowerBound_failures (o d : option Coords) :
  (estimateLowerBound o d params = Throw TypeError <-> o = None \/ d = None)
  /\ (forall co cd,
         o = Some co -> d = Some cd ->
         (estimateLowerBound o d params = Ret NaN
          <-> c_lat co = None \/ c_lon co = None \/ c_lat cd = None \/ c_lon cd = None)).
Proof.
  split.
  - destruct o as [o |], d as [d |]; cbn; split; intros H;
      try reflexivity; try discriminate; auto.
    destruct H; discriminate.
  - intros co cd -> ->. cbn.
    destruct (c_lat co), (c_lon co), (c_lat cd), (c_lon cd); cbn;
      split; intros H; try reflexivity; try discriminate; auto;
      destruct H as [H | [H | [H | H]]]; discriminate.
Qed.

(** X5.  An edge object without [lat]/[lon] and without
    [destination_lat]/[destination_lon] switches off the lower-bound test
    and the detour test: both compare with NaN, and the arc is pruned
    exactly when its own new cost already reaches the best cost. *)
Theorem shouldPrune_without_edge_coordinates (partial : State) (leg : Leg)
    (bestCost : option num) (d po : Coords) (g : R) :
  genCostSoFar partial = Some g ->
  origin partial = Some po ->
  e_lat (edge_leg leg) = None \/ e_lon (edge_leg leg) = None ->
  destination_lat (edge_leg leg) = None \/ destination_lon (edge_leg leg) = None ->
  shouldPrune partial leg bestCost (Some d) params
  = Ret (reaches (newGenCost (computeLegGeneralizedCost partial leg params)) bestCost).
Proof.
  intros Hg Ho He Hd. unfold shouldPrune.
  destruct (reaches (newGenCost (computeLegGeneralizedCost partial leg params)) bestCost)
    eqn:Hr; [reflexivity |].
  assert (Hlb : estimateLowerBound (Some (edge_coords (edge_leg leg))) (Some d) params
                = Ret NaN).
  { unfold estimateLowerBound, edge_coords, approxKm. cbn [deref bind c_lat c_lon].
    destruct He as [-> | ->]; destruct (e_lat (edge_leg leg)), (e_lon (edge_leg leg));
      cbn; destruct (c_lat d), (c_lon d); reflexivity. }
  rewrite Hlb. cbn [bind].
  assert (Hn : forall x, nadd x NaN = NaN) by (intros []; reflexivity).
  rewrite Hn. assert (Hrn : reaches NaN bestCost = false) by (destruct bestCost; reflexivity).
  rewrite Hrn, Ho. cbn [deref bind].
  assert (Hs : approxKm (c_lat po) (c_lon po) (destination_lat (edge_leg leg))
                 (destination_lon (edge_leg leg)) = NaN).
  { unfold approxKm.
    destruct Hd as [-> | ->]; destruct (c_lat po), (c_lon po),
      (destination_lat (edge_leg leg)), (destination_lon (edge_leg leg)); reflexivity. }
  rewrite Hs. reflexivity.
Qed.

End lb_extras.

Lemma shouldPrune_without_edge_coordinates_witness :
  shouldPrune boarded fast_flight None (Some (node_coords far_d)) no_params = Ret false.
Proof.
  rewrite (shouldPrune_without_edge_coordinates no_params boarded fast_flight None
             (node_coords far_d) (node_coords far_u) 0%R eq_refl eq_refl
             (or_introl eq_refl) (or_introl eq_refl)).
  reflexivity.
Defined.

(** ** Distances and synthesized transfers *)

Section rounding.
Local Open Scope R_scope.

Lemma floor_bounds (x : R) : IZR (floor x) <= x < IZR (floor x) + 1.
Proof.
  unfold floor. rewrite minus_IZR. destruct (archimed x) as [H1 H2]. lra.
Qed.

Lemma floor_ge (n : Z) (x : R) : IZR n <= x -> (n <= floor x)%Z.
Proof.
  intros H. destruct (floor_bounds x) as [_ H2].
  assert (IZR n < IZR (floor x + 1)) by (rewrite plus_IZR; lra).
  apply lt_IZR in H0. lia.
Qed.


Lemma round_ge (n : Z) (x : R) : IZR n <= x + / 2 -> (n <= round x)%Z.
Proof. intros H. unfold round. apply floor_ge. exact H. Qed.


End rounding.

Section haversine_props.
Local Open Scope R_scope.

Lemma atan2_nonneg (y x : R) : 0 <= y -> 0 <= x -> 0 <= atan2 y x <= PI / 2.
Proof.
  intros Hy Hx. pose proof PI_RGT_0 as Hpi. unfold atan2.
  unfold Rgtb, Rltb, Rgeb.
  destruct (Rgt_dec x 0) as [Hx0 |].
  - assert (0 <= y / x).
    { unfold Rdiv. apply Rmult_le_pos; [lra |]. left. apply Rinv_0_lt_compat. lra. }
    destruct (atan_bound (y / x)) as [_ Hub].
    destruct (Req_dec (y / x) 0) as [-> | Hne].
    + rewrite atan_0. lra.
    + assert (0 < y / x) by lra.
      pose proof (atan_increasing 0 (y / x) H0) as Hi. rewrite atan_0 in Hi. lra.
  - destruct (Rlt_dec x 0); [lra |].
    destruct (Rgt_dec y 0); [lra |].
    destruct (Rlt_dec y 0); lra.
Qed.

Lemma haversine_range (lat1 lon1 lat2 lon2 : R) :
  0 <= haversine lat1 lon1 lat2 lon2 <= 6371 * PI.
Proof.
  unfold haversine.
  set (a := _ + _).
  pose proof (atan2_nonneg (sqrt a) (sqrt (1 - a)) (sqrt_pos _) (sqrt_pos _)) as H.
  lra.
Qed.



Lemma node_distance_nonneg (a b : Node) : 0 <= node_distance a b.
Proof. unfold node_distance. apply haversine_range. Qed.

End haversine_props.

Section generator_props.
Local Open Scope R_scope.

Lemma minutesBetween_span (now d : Z) :
  minutesBetween now (now + d * 60000) = IZR d.
Proof. unfold minutesBetween. rewrite plus_IZR, mult_IZR. field. Qed.

Lemma shuttle_duration_nonneg (a b : Node) :
  (0 <= round (node_distance a b / 25 * 60))%Z.
Proof.
  apply round_ge. pose proof (node_distance_nonneg a b). cbn. lra.
Qed.

(** Every synthesized transfer departs at the clock reading, arrives
    [duration_min] minutes later, is flagged as a transfer and names no
    end node. *)
Lemma synthesized_leg_facts (now : Z) (a b : Node) (leg : Leg) :
  In leg [ generateWalkTransfer now a b;
           generateRideshareTransfer now a b DEFAULT_RIDESHARE_MODEL;
           generateShuttleTransfer now a b default_shuttle_opts ] ->
  departure_time_utc (offer leg) = now
  /\ arrival_time_utc (offer leg) = (now + duration_min (edge_leg leg) * 60000)%Z
  /\ minutesBetween (departure_time_utc (offer leg)) (arrival_time_utc (offer leg))
     = IZR (duration_min (edge_leg leg))
  /\ (0 <= duration_min (edge_leg leg))%Z
  /\ (mode (edge_leg leg) = WALK -> (3 <= duration_min (edge_leg leg))%Z)
  /\ (mode (edge_leg leg) = RIDESHARE -> (5 <= duration_min (edge_leg leg))%Z)
  /\ is_transfer (edge_leg leg) = 1%Z
  /\ origin_node_id (edge_leg leg) = IUndefined
  /\ destination_node_id (edge_leg leg) = IUndefined.
Proof.
  intros [<- | [<- | [<- | []]]]; cbn [generateWalkTransfer generateRideshareTransfer
    generateShuttleTransfer offer edge_leg transfer_edge departure_time_utc
    arrival_time_utc duration_min mode is_transfer origin_node_id destination_node_id];
    rewrite minutesBetween_span; repeat split; try reflexivity; try discriminate;
    intros; try lia.
  apply shuttle_duration_nonneg.
Qed.


(** Prices under the default models: a walk is free, a shuttle costs 12,
    a rideshare never costs less than 4.25. *)
Lemma synthesized_prices (now : Z) (a b : Node) :
  price_total (offer (generateWalkTransfer now a b)) = Some 0
  /\ price_total (offer (generateShuttleTransfer now a b default_shuttle_opts)) = Some 12
  /\ exists p,
      price_total (offer (generateRideshareTransfer now a b DEFAULT_RIDESHARE_MODEL))
      = Some p
      /\ 425 / 100 <= p.
Proof.
  split; [reflexivity |]. split; [reflexivity |].
  eexists. split; [reflexivity |].
  cbn [DEFAULT_RIDESHARE_MODEL base_fare per_km per_min avg_speed_kmh surge_coeff].
  set (d := node_distance a b). set (t := Z.max 5 _).
  pose proof (node_distance_nonneg a b) as Hd. fold d in Hd.
  assert (Ht : 5 <= IZR t) by (apply IZR_le; subst t; lia).
  assert (Hr : (425 <= round ((3 + 125 / 100 * d + 25 / 100 * IZR t) * 1 * 100))%Z).
  { apply round_ge. lra. }
  apply IZR_le in Hr. lra.
Qed.

End generator_props.



(** ** The adjacency of the scheduled offers *)

Section adjacency.

Lemma group_offers_acc (offers : list Offer) (k : idval) :
  forall acc : gmap idval (list Offer),
    default [] (fold_left
                  (fun acc off =>
                     let list := default [] (acc !! edge_leg_id off) in
                     <[edge_leg_id off := list ++ [off]]> acc)
                  offers acc !! k)
    = default [] (acc !! k)
        ++ List.filter (fun o => bool_decide (edge_leg_id o = k)) offers.
Proof.
  induction offers as [| off offers IH]; intros acc.
  - cbn. rewrite app_nil_r. reflexivity.
  - cbn [fold_left List.filter]. rewrite IH.
    destruct (bool_decide_reflect (edge_leg_id off = k)) as [-> | Hne].
    + rewrite lookup_insert_eq. cbn. rewrite <- app_assoc. reflexivity.
    + rewrite lookup_insert_ne by exact Hne. reflexivity.
Qed.

Lemma group_offers_lookup (offers : list Offer) (e : EdgeLeg) :
  default [] (group_offers offers !! e_id e) = offers_of offers e.
Proof.
  unfold group_offers. rewrite group_offers_acc. rewrite lookup_empty. reflexivity.
Qed.

Lemma for_of_push (e : EdgeLeg) (k : idval) (os : list Offer) :
  forall (adj : Adj) (ls : list Leg),
    adj !! k = Some ls ->
    for_of os (fun off adj => push k {| edge_leg := e; offer := off |} adj) adj
    = Ret (<[k := ls ++ map (fun o => {| edge_leg := e; offer := o |}) os]> adj).
Proof.
  induction os as [| o os IH]; intros adj ls Hk.
  - cbn. rewrite app_nil_r. rewrite insert_id by exact Hk. reflexivity.
  - cbn [for_of]. rewrite (push_Some _ _ _ _ Hk). cbn [bind].
    rewrite (IH _ (ls ++ [{| edge_leg := e; offer := o |}])) by apply lookup_insert_eq.
    rewrite insert_insert_eq. cbn [map]. rewrite <- app_assoc. reflexivity.
Qed.

Lemma for_of_push_missing (e : EdgeLeg) (k : idval) (o : Offer) (os : list Offer)
    (adj : Adj) :
  adj !! k = None ->
  for_of (o :: os) (fun off adj => push k {| edge_leg := e; offer := off |} adj) adj
  = Throw TypeError.
Proof. intros Hk. cbn [for_of]. unfold push. rewrite Hk. reflexivity. Qed.

(** The edge loop of [buildAdjacency] from any adjacency. *)
Lemma edge_loop_returns (offers : list Offer) (edges : list EdgeLeg) :
  forall adj : Adj,
    (forall e, In e edges -> offers_of offers e <> [] ->
               is_Some (adj !! origin_node_id e)) ->
    exists adj',
      for_of edges
        (fun e adj =>
           for_of (default [] (group_offers offers !! e_id e))
             (fun off adj => push (origin_node_id e) {| edge_leg := e; offer := off |} adj)
             adj)
        adj
      = Ret adj'
      /\ (forall k, is_Some (adj' !! k) <-> is_Some (adj !! k))
      /\ (forall k,
             arcs_at adj' k
             = arcs_at adj k
                 ++ flat_map
                      (fun e =>
                         if decide (origin_node_id e = k) then arcs_of offers e else [])
                      edges).
Proof.
  induction edges as [| e edges IH]; intros adj Hin.
  - exists adj. split; [reflexivity |]. split; [tauto |].
    intros k. cbn. rewrite app_nil_r. reflexivity.
  - cbn [for_of]. rewrite group_offers_lookup.
    destruct (offers_of offers e) as [| o os] eqn:Hos.
    + cbn [for_of bind].
      destruct (IH adj) as (adj' & Hrun & Hdom & Harcs).
      { intros e' He'. apply Hin. right. exact He'. }
      exists adj'. split; [exact Hrun |]. split; [exact Hdom |].
      intros k. rewrite Harcs. cbn [flat_map]. unfold arcs_of at 2. rewrite Hos.
      destruct (decide (origin_node_id e = k)); reflexivity.
    + destruct (Hin e (or_introl eq_refl)) as [ls Hls]; [rewrite Hos; discriminate |].
      rewrite (for_of_push e _ (o :: os) adj ls Hls). cbn [bind].
      set (new := map (fun o0 => {| edge_leg := e; offer := o0 |}) (o :: os)).
      destruct (IH (<[origin_node_id e := ls ++ new]> adj)) as (adj' & Hrun & Hdom & Harcs).
      { intros e' He' Hne. destruct (decide (origin_node_id e = origin_node_id e')) as [<- |].
        - rewrite lookup_insert_eq. eauto.
        - rewrite lookup_insert_ne by assumption. apply Hin; [right |]; assumption. }
      exists adj'. split; [exact Hrun |]. split.
      * intros k. rewrite Hdom. destruct (decide (origin_node_id e = k)) as [<- | Hne].
        -- rewrite lookup_insert_eq, Hls. split; eauto.
        -- rewrite lookup_insert_ne by exact Hne. tauto.
      * intros k. rewrite Harcs. cbn [flat_map]. unfold arcs_of at 2. rewrite Hos.
        fold new.
        destruct (decide (origin_node_id e = k)) as [<- | Hne].
        -- rewrite arcs_at_insert_eq, (arcs_at_Some _ _ _ Hls), <- app_assoc. reflexivity.
        -- rewrite arcs_at_insert_ne by exact Hne. reflexivity.
Qed.

Lemma edge_loop_throws (offers : list Offer) (edges : list EdgeLeg) :
  forall adj : Adj,
    (exists e, In e edges /\ offers_of offers e <> []
               /\ adj !! origin_node_id e = None) ->
    for_of edges
      (fun e adj =>
         for_of (default [] (group_offers offers !! e_id e))
           (fun off adj => push (origin_node_id e) {| edge_leg := e; offer := off |} adj)
           adj)
      adj
    = Throw TypeError.
Proof.
  induction edges as [| e edges IH]; intros adj (e0 & Hin & Hos & Hnone).
  - destruct Hin.
  - cbn [for_of]. rewrite group_offers_lookup.
    destruct (offers_of offers e) as [| o os] eqn:Hoe.
    + cbn [for_of bind]. apply IH. exists e0.
      destruct Hin as [-> | Hin]; [congruence |]. auto.
    + destruct (adj !! origin_node_id e) as [ls |] eqn:Hls.
      * rewrite (for_of_push e _ (o :: os) adj ls Hls). cbn [bind].
        destruct Hin as [-> | Hin]; [congruence |].
        apply IH. exists e0. split; [exact Hin |]. split; [exact Hos |].
        rewrite lookup_insert_ne; [exact Hnone |]. congruence.
      * rewrite (for_of_push_missing e _ o os adj Hls). reflexivity.
Qed.

Lemma empty_entries_lookup (ns : list Node) (k : idval) :
  empty_entries ns !! k = if decide (k ∈ map id ns) then Some [] else None.
Proof.
  unfold empty_entries.
  assert (H : forall acc : Adj,
             fold_left (fun acc n => <[id n := []]> acc) ns acc !! k
             = if decide (k ∈ map id ns) then Some [] else acc !! k).
  { induction ns as [| n ns IH]; intros acc.
    - cbn. destruct (decide (k ∈ [])) as [Hk |]; [| reflexivity].
      apply elem_of_nil in Hk. destruct Hk.
    - cbn [fold_left map]. rewrite IH.
      destruct (decide (k ∈ map id ns)) as [Hin | Hnin].
      + destruct (decide (k ∈ id n :: map id ns)) as [| Hn]; [reflexivity |].
        exfalso. apply Hn. apply elem_of_cons. right. exact Hin.
      + destruct (decide (k ∈ id n :: map id ns)) as [Hk | Hn].
        * apply elem_of_cons in Hk as [-> | Hk]; [apply lookup_insert_eq | contradiction].
        * rewrite lookup_insert_ne; [reflexivity |].
          intros Heq. apply Hn. apply elem_of_cons. left. symmetry. exact Heq. }
  rewrite H. destruct (decide (k ∈ map id ns)); [reflexivity | apply lookup_empty].
Qed.

Lemma empty_entries_is_Some (ns : list Node) (k : idval) :
  is_Some (empty_entries ns !! k) <-> In k (map id ns).
Proof.
  rewrite empty_entries_lookup, <- list_elem_of_In.
  destruct (decide (k ∈ map id ns)); split; intros H; eauto; try contradiction.
  destruct H; discriminate.
Qed.

Lemma offers_of_nonempty (offers : list Offer) (e : EdgeLeg) :
  offers_of offers e <> [] <-> exists o, In o offers /\ edge_leg_id o = e_id e.
Proof.
  unfold offers_of. split.
  - destruct (List.filter _ offers) as [| o os] eqn:Hf; [congruence |].
    intros _. exists o.
    assert (Hin : In o (List.filter (fun o => bool_decide (edge_leg_id o = e_id e)) offers))
      by (rewrite Hf; left; reflexivity).
    apply filter_In in Hin as [Hin Hb]. apply bool_decide_eq_true in Hb. auto.
  - intros (o & Hin & Ho) Hnil.
    assert (H : In o (List.filter (fun o => bool_decide (edge_leg_id o = e_id e)) offers)).
    { apply filter_In. split; [exact Hin |]. apply bool_decide_eq_true. exact Ho. }
    rewrite Hnil in H. destruct H.
Qed.

Lemma buildAdjacency_cases (ns : list Node) (edges : list EdgeLeg) (offers : list Offer) :
  (exists e, In e edges /\ offers_of offers e <> [] /\ ~ In (origin_node_id e) (map id ns))
  \/ (forall e, In e edges -> offers_of offers e <> [] -> In (origin_node_id e) (map id ns)).
Proof.
  induction edges as [| e edges IH].
  - right. intros e [].
  - destruct IH as [(e0 & Hin & H1 & H2) | Hall].
    + left. exists e0. split; [right; exact Hin | auto].
    + destruct (offers_of offers e) as [| o os] eqn:Hos.
      * right. intros e' [<- | Hin] Hne; [congruence | auto].
      * destruct (in_dec (fun x y : idval => decide (x = y)) (origin_node_id e) (map id ns))
          as [Hin | Hnin].
        -- right. intros e' [<- | Hin'] Hne; auto.
        -- left. exists e. split; [left; reflexivity |]. split; [rewrite Hos; discriminate | exact Hnin].
Qed.

End adjacency.

Section adjacency_theorems.

Lemma buildAdjacency_unfold (ns : list Node) (edges : list EdgeLeg) (offers : list Offer) :
  buildAdjacency ns edges offers
  = for_of edges
      (fun e adj =>
         for_of (default [] (group_offers offers !! e_id e))
           (fun off adj => push (origin_node_id e) {| edge_leg := e; offer := off |} adj)
           adj)
      (empty_entries ns).
Proof. reflexivity. Qed.

(** X11.  [buildAdjacency] throws exactly when some edge that has an offer
    leaves a node id that is not the id of a loaded node. *)
Theorem buildAdjacency_throws_iff (ns : list Node) (edges : list EdgeLeg)
    (offers : list Offer) :
  buildAdjacency ns edges offers = Throw TypeError
  <-> exists e,
      In e edges
      /\ (exists o, In o offers /\ edge_leg_id o = e_id e)
      /\ ~ In (origin_node_id e) (map id ns).
Proof.
  rewrite buildAdjacency_unfold. split.
  - intros Hthrow.
    destruct (buildAdjacency_cases ns edges offers) as [(e & Hin & Hos & Hnin) | Hall].
    + exists e. split; [exact Hin |]. split; [apply offers_of_nonempty; exact Hos | exact Hnin].
    + destruct (edge_loop_returns offers edges (empty_entries ns)) as (adj' & Hrun & _).
      { intros e He Hos. apply empty_entries_is_Some. apply Hall; assumption. }
      rewrite Hrun in Hthrow. discriminate.
  - intros (e & Hin & Hos & Hnin). apply edge_loop_throws.
    exists e. split; [exact Hin |]. split; [apply offers_of_nonempty; exact Hos |].
    destruct (empty_entries ns !! origin_node_id e) eqn:Hl; [| reflexivity].
    exfalso. apply Hnin. apply empty_entries_is_Some. rewrite Hl. eauto.
Qed.

Lemma buildAdjacency_result (ns : list Node) (edges : list EdgeLeg)
    (offers : list Offer) (adj : Adj) :
  buildAdjacency ns edges offers = Ret adj ->
  (forall k, is_Some (adj !! k) <-> In k (map id ns))
  /\ (forall k,
         arcs_at adj k
         = flat_map
             (fun e => if decide (origin_node_id e = k) then arcs_of offers e else [])
             edges).
Proof.
  rewrite buildAdjacency_unfold. intros Hret.
  destruct (buildAdjacency_cases ns edges offers) as [Hex | Hall].
  - rewrite edge_loop_throws in Hret; [discriminate |].
    destruct Hex as (e & Hin & Hos & Hnin). exists e. split; [exact Hin |].
    split; [exact Hos |].
    destruct (empty_entries ns !! origin_node_id e) eqn:Hl; [| reflexivity].
    exfalso. apply Hnin. apply empty_entries_is_Some. rewrite Hl. eauto.
  - destruct (edge_loop_returns offers edges (empty_entries ns)) as (adj' & Hrun & Hdom & Harcs).
    { intros e He Hos. apply empty_entries_is_Some. apply Hall; assumption. }
    rewrite Hrun in Hret. injection Hret as <-. split.
    + intros k. rewrite Hdom. apply empty_entries_is_Some.
    + intros k. rewrite Harcs. unfold arcs_at at 1. rewrite empty_entries_lookup.
      destruct (decide (k ∈ map id ns)); reflexivity.
Qed.

(** X12.  When [buildAdjacency] returns, the adjacency has an entry for
    exactly the ids of the loaded nodes, and the entry of a node holds, edge
    after edge and offer after offer, one timed arc for every offer of every
    edge that leaves it. *)
Theorem buildAdjacency_content (ns : list Node) (edges : list EdgeLeg)
    (offers : list Offer) (adj : Adj) :
  buildAdjacency ns edges offers = Ret adj ->
  (forall k, is_Some (adj !! k) <-> In k (map id ns))
  /\ (forall k,
         arcs_at adj k
         = flat_map
             (fun e =>
                if decide (origin_node_id e = k) then
                  map (fun o => {| edge_leg := e; offer := o |})
                      (List.filter (fun o => bool_decide (edge_leg_id o = e_id e)) offers)
                else [])
             edges).
Proof. apply buildAdjacency_result. Qed.

End adjacency_theorems.

Lemma buildAdjacency_content_witness :
  arcs_at (<[INum 1 := [fast_flight]]> (empty_entries [far_u; far_d])) (INum 1)
  = [fast_flight].
Proof.
  destruct (buildAdjacency_content [far_u; far_d] [edge_leg fast_flight]
              [offer fast_flight] _
              (buildAdjacency_flight fast_flight eq_refl eq_refl eq_refl))
    as [_ H].
  etransitivity; [exact (H (INum 1)) | reflexivity].
Defined.

(** ** Graph assembly *)

Section graph_theorems.
Local Open Scope R_scope.

Lemma strict_eq_sym (x y : idval) : strict_eq x y = strict_eq y x.
Proof.
  unfold strict_eq.
  destruct (bool_decide_reflect (x = y)), (bool_decide_reflect (y = x));
    congruence.
Qed.

(** X13.  The transfer test is symmetric: [b] gets the three transfers to
    [a] exactly when [a] gets the three transfers to [b]. *)
Theorem transfer_test_symmetric (clock : Clock) (r : R) (a b : Node) (t t' : nat)
    (adj : Adj) (la lb : list Leg) :
  adj !! id a = Some la ->
  adj !! id b = Some lb ->
  (transfer_pair clock r a b (t, adj)
   = Ret (S (S (S t)), <[id a := la ++ pair_arcs clock t a b]> adj)
   /\ transfer_pair clock r b a (t', adj)
      = Ret (S (S (S t')), <[id b := lb ++ pair_arcs clock t' b a]> adj))
  \/ (transfer_pair clock r a b (t, adj) = Ret (t, adj)
      /\ transfer_pair clock r b a (t', adj) = Ret (t', adj)).
Proof.
  intros Ha Hb.
  assert (Hsym : near r b a = near r a b).
  { unfold near. rewrite strict_eq_sym, distApprox_sym. reflexivity. }
  destruct (near r a b) eqn:Hn.
  - left. split; apply transfer_pair_near; assumption.
  - right. split; apply transfer_pair_skip; assumption.
Qed.

Lemma pair_arcs_facts (clock : Clock) (t : nat) (a b : Node) (l : Leg) :
  In l (pair_arcs clock t a b) ->
  is_transfer (edge_leg l) = 1%Z
  /\ origin_node_id (edge_leg l) = IUndefined
  /\ destination_node_id (edge_leg l) = IUndefined
  /\ (departure_time_utc (offer l) <= arrival_time_utc (offer l))%Z
  /\ exists p, price_total (offer l) = Some p /\ 0 <= p.
Proof.
  intros Hin. unfold pair_arcs in Hin.
  assert (Hcase : exists now,
             In l [ generateWalkTransfer now a b;
                    generateRideshareTransfer now a b DEFAULT_RIDESHARE_MODEL;
                    generateShuttleTransfer now a b default_shuttle_opts ]).
  { destruct Hin as [<- | [<- | [<- | []]]]; eexists; cbn; eauto. }
  destruct Hcase as (now & Hl).
  destruct (synthesized_leg_facts now a b l Hl)
    as (Hdep & Harr & _ & Hd & _ & _ & Ht & Ho & Hdst).
  split; [exact Ht |]. split; [exact Ho |]. split; [exact Hdst |].
  split; [rewrite Harr, Hdep; lia |].
  destruct (synthesized_prices now a b) as (Hw & Hs & p & Hp & Hp4).
  destruct Hl as [<- | [<- | [<- | []]]].
  - exists 0. split; [exact Hw | lra].
  - exists p. split; [exact Hp | lra].
  - exists 12. split; [exact Hs | lra].
Qed.

Lemma buildGraph_shape (clock : Clock) (t : nat) (db : Db) (adj0 : Adj) :
  buildAdjacency (db_nodes db) (db_edges db) (db_offers db) = Ret adj0 ->
  exists t' g,
    buildGraph clock t db = Ret (t', g)
    /\ nodes g = db_nodes db
    /\ (forall k, is_Some (adj g !! k) <-> In k (map id (db_nodes db)))
    /\ forall k, exists new,
        arcs_at (adj g) k = arcs_at adj0 k ++ new
        /\ Forall (fun l =>
                     is_transfer (edge_leg l) = 1%Z
                     /\ origin_node_id (edge_leg l) = IUndefined
                     /\ destination_node_id (edge_leg l) = IUndefined
                     /\ (departure_time_utc (offer l) <= arrival_time_utc (offer l))%Z
                     /\ exists p, price_total (offer l) = Some p /\ 0 <= p)
                  new.
Proof.
  intros H. unfold buildGraph. rewrite H. cbn [bind].
  destruct (buildAdjacency_result _ _ _ _ H) as [Hdom0 _].
  destruct (outer_loop_arcs clock 3 (db_nodes db) (db_nodes db) t adj0)
    as (t' & adj' & Hrun & Hdom & Hk).
  { intros a Ha. apply Hdom0. apply in_map. exact Ha. }
  unfold addTransferEdges. rewrite Hrun. cbn [bind].
  exists t', {| nodes := db_nodes db; adj := adj' |}.
  split; [reflexivity |]. split; [reflexivity |]. split.
  - intros k. cbn [adj]. rewrite Hdom. apply Hdom0.
  - intros k. destruct (Hk k) as (new & Harcs & _ & Hall).
    exists new. split; [exact Harcs |].
    eapply Forall_impl; [exact Hall |].
    intros l (a & b & t0 & _ & _ & _ & _ & Hl). eapply pair_arcs_facts. exact Hl.
Qed.

(** X14.  [buildGraph] fails only where [buildAdjacency] does.  When it
    returns, the nodes are those of the store, the adjacency has an entry
    for exactly their ids, and every entry is the entry of [buildAdjacency]
    followed by synthesized arcs: transfers that name no end node, do not
    arrive before they depart and have a price that is not negative. *)
Theorem buildGraph_after_buildAdjacency (clock : Clock) (t : nat) (db : Db) :
  (buildAdjacency (db_nodes db) (db_edges db) (db_offers db) = Throw TypeError ->
   buildGraph clock t db = Throw TypeError)
  /\ (forall adj0,
         buildAdjacency (db_nodes db) (db_edges db) (db_offers db) = Ret adj0 ->
         exists t' g,
           buildGraph clock t db = Ret (t', g)
           /\ nodes g = db_nodes db
           /\ (forall k, is_Some (adj g !! k) <-> In k (map id (db_nodes db)))
           /\ forall k, exists new,
               arcs_at (adj g) k = arcs_at adj0 k ++ new
               /\ Forall (fun l =>
                            is_transfer (edge_leg l) = 1%Z
                            /\ origin_node_id (edge_leg l) = IUndefined
                            /\ destination_node_id (edge_leg l) = IUndefined
                            /\ (departure_time_utc (offer l) <= arrival_time_utc (offer l))%Z
                            /\ exists p, price_total (offer l) = Some p /\ 0 <= p)
                         new).
Proof.
  split.
  - intros H. unfold buildGraph. rewrite H. reflexivity.
  - intros adj0 H. apply buildGraph_shape. exact H.
Qed.

Lemma node_table_acc (ns : list Node) (k : idval) :
  forall acc : gmap idval Node,
    (forall n, acc !! k = Some n -> id n = k) ->
    forall n,
      fold_left (fun acc n => <[id n := n]> acc) ns acc !! k = Some n ->
      id n = k /\ (In n ns \/ acc !! k = Some n).
Proof.
  induction ns as [| m ns IH]; intros acc Hacc n Hn.
  - cbn in Hn. split; [apply Hacc; exact Hn | right; exact Hn].
  - cbn [fold_left] in Hn. apply IH in Hn.
    + destruct Hn as [Hid [Hin | Hl]]; split; try exact Hid.
      * left. right. exact Hin.
      * destruct (decide (id m = k)) as [<- | Hne].
        -- rewrite lookup_insert_eq in Hl. injection Hl as <-. left. left. reflexivity.
        -- rewrite lookup_insert_ne in Hl by exact Hne. right. exact Hl.
    + intros n' Hn'. destruct (decide (id m = k)) as [<- | Hne].
      * rewrite lookup_insert_eq in Hn'. injection Hn' as <-. reflexivity.
      * rewrite lookup_insert_ne in Hn' by exact Hne. apply Hacc. exact Hn'.
Qed.

Lemma node_table_keeps (ns : list Node) (n : Node) :
  forall acc : gmap idval Node,
    ~ In (id n) (map id ns) ->
    acc !! id n = Some n ->
    fold_left (fun acc n => <[id n := n]> acc) ns acc !! id n = Some n.
Proof.
  induction ns as [| m ns IH]; intros acc Hnin Hacc.
  - exact Hacc.
  - cbn [fold_left]. apply IH.
    + intros Hin. apply Hnin. right. exact Hin.
    + rewrite lookup_insert_ne; [exact Hacc |].
      intros Heq. apply Hnin. left. exact Heq.
Qed.

Lemma node_table_finds (ns : list Node) (n : Node) :
  forall acc : gmap idval Node,
    NoDup (map id ns) -> In n ns ->
    fold_left (fun acc n => <[id n := n]> acc) ns acc !! id n = Some n.
Proof.
  induction ns as [| m ns IH]; intros acc Hnd Hin.
  - destruct Hin.
  - cbn [map] in Hnd. apply NoDup_cons in Hnd as [Hm Hnd]. cbn [fold_left].
    destruct Hin as [-> | Hin].
    + apply node_table_keeps.
      * intros H. apply Hm. apply list_elem_of_In. exact H.
      * apply lookup_insert_eq.
    + apply IH; assumption.
Qed.

Lemma node_table_member (g : GraphT) (k : idval) (n : Node) :
  node_table g !! k = Some n -> In n (nodes g) /\ id n = k.
Proof.
  intros Hn. unfold node_table in Hn. apply node_table_acc in Hn.
  - destruct Hn as [Hid [Hin | Hl]]; [auto |]. rewrite lookup_empty in Hl. discriminate.
  - intros n'. rewrite lookup_empty. discriminate.
Qed.





(** X15.  The node table of the search: a lookup only returns a node of the
    graph that has the id asked for; when no two nodes share an id, every
    node is found under its id. *)
Theorem node_table_lookup (g : GraphT) :
  (forall k n, node_table g !! k = Some n -> In n (nodes g) /\ id n = k)
  /\ (forall k, ~ In k (map id (nodes g)) -> node_table g !! k = None)
  /\ (NoDup (map id (nodes g)) ->
      forall n, In n (nodes g) -> node_table g !! id n = Some n).
Proof.
  assert (H1 : forall k n, node_table g !! k = Some n -> In n (nodes g) /\ id n = k)
    by apply node_table_member.
  split; [exact H1 |]. split.
  - intros k Hnin. destruct (node_table g !! k) as [n |] eqn:Hn; [| reflexivity].
    exfalso. apply Hnin. destruct (H1 k n Hn) as [Hin <-]. apply in_map. exact Hin.
  - intros Hnd n Hin. unfold node_table. apply node_table_finds; assumption.
Qed.

End graph_theorems.

(** ** Dominance *)

Section dominance_extras.

(** X16.  Two arrivals get the same dominance key exactly when they are at
    the same node and in the same window [300000 * b, 300000 * (b + 1)) of
    epoch milliseconds. *)
Theorem makeDominanceKey_same_window (n1 n2 : idval) (t1 t2 : Z) :
  makeDominanceKey n1 t1 = makeDominanceKey n2 t2
  <-> n1 = n2
      /\ exists b : Z,
          (300000 * b <= t1 < 300000 * (b + 1))%Z
          /\ (300000 * b <= t2 < 300000 * (b + 1))%Z.
Proof.
  unfold makeDominanceKey. change (5 * 60 * 1000)%Z with 300000%Z. split.
  - intros H. injection H as Hn Hb. split; [exact Hn |].
    exists (t1 / 300000)%Z. split.
    + Z.div_mod_to_equations. lia.
    + rewrite Hb. Z.div_mod_to_equations. lia.
  - intros [-> (b & H1 & H2)]. f_equal.
    assert ((t1 / 300000 = b)%Z) by (Z.div_mod_to_equations; lia).
    assert ((t2 / 300000 = b)%Z) by (Z.div_mod_to_equations; lia).
    congruence.
Qed.

Lemma isDominated_other_key (s : State) (m : DomMap) (k : idval * Z) :
  k <> makeDominanceKey (nodeId s) (arrivalTimeUtc s) ->
  snd (isDominated s m) !! k = m !! k.
Proof.
  intros Hne. unfold isDominated.
  destruct (m !! makeDominanceKey (nodeId s) (arrivalTimeUtc s)) as [prev |].
  - destruct (nle prev (genCost s)); cbn [snd]; [reflexivity |].
    rewrite lookup_insert_ne by congruence. reflexivity.
  - cbn [snd]. rewrite lookup_insert_ne by congruence. reflexivity.
Qed.

(** X17.  The dominance table keeps, per key, the least finite cost seen:
    after a call the recorded cost is the minimum of the recorded one and
    the cost of the state; no other key changes. *)
Theorem isDominated_records_minimum (s : State) (m : DomMap) (c : R) :
  genCost s = Fin c ->
  let key := makeDominanceKey (nodeId s) (arrivalTimeUtc s) in
  (forall p, m !! key = Some (Fin p) ->
             snd (isDominated s m) !! key = Some (Fin (Rmin p c)))
  /\ (m !! key = None -> snd (isDominated s m) !! key = Some (Fin c))
  /\ (forall k, k <> key -> snd (isDominated s m) !! k = m !! k).
Proof.
  intros Hc key. split; [| split].
  - intros p Hp. unfold isDominated. fold key. rewrite Hp, Hc. cbn [nle].
    unfold Rleb. destruct (Rle_dec p c) as [Hle | Hgt]; cbn [snd].
    + rewrite Hp. rewrite Rmin_left by exact Hle. reflexivity.
    + rewrite lookup_insert_eq. rewrite Rmin_right by lra. reflexivity.
  - intros Hn. unfold isDominated. fold key. rewrite Hn. cbn [snd].
    rewrite lookup_insert_eq, Hc. reflexivity.
  - intros k Hk. apply isDominated_other_key. exact Hk.
Qed.

Lemma computeLegGeneralizedCost_createState (n : idval) (a : Z) (g t : num)
    (p : list Leg) (leg : Leg) (params : Params) :
  newGenCost (computeLegGeneralizedCost (createState n a g t p) leg params) = NaN
  /\ newTransfers (computeLegGeneralizedCost (createState n a g t p) leg params) = NaN.
Proof. split; reflexivity. Qed.

(** X18.  The successor the loop builds from a state made by [createState]
    has cost NaN.  The dominance test never drops a state whose cost is NaN,
    whatever the table holds, and records NaN under its key; and a state that
    is tested while NaN is recorded under its key is not dropped either,
    whatever its cost, and replaces the NaN by its own cost. *)
Theorem nan_cost_defeats_dominance (n : idval) (a : Z) (g t : num) (p : list Leg)
    (leg : Leg) (params : Params) :
  let c := computeLegGeneralizedCost (createState n a g t p) leg params in
  let newState :=
    createState (destination_node_id (edge_leg leg)) (arrival_time_utc (offer leg))
                (newGenCost c) (newTransfers c) (p ++ [leg]) in
  genCost newState = NaN
  /\ (forall (s : State) (m : DomMap),
        genCost s = NaN ->
        isDominated s m
        = (false, <[makeDominanceKey (nodeId s) (arrivalTimeUtc s) := NaN]> m))
  /\ (forall (s : State) (m : DomMap),
        m !! makeDominanceKey (nodeId s) (arrivalTimeUtc s) = Some NaN ->
        isDominated s m
        = (false, <[makeDominanceKey (nodeId s) (arrivalTimeUtc s) := genCost s]> m)).
Proof.
  intros c newState.
  split; [reflexivity |]. split.
  - intros s m Hnan. unfold isDominated. rewrite Hnan.
    destruct (m !! _) as [[x |] |]; reflexivity.
  - intros s m Hm. unfold isDominated. rewrite Hm. reflexivity.
Qed.

End dominance_extras.

Lemma isDominated_records_minimum_witness :
  snd (isDominated second_at_7 (snd (isDominated first_at_7 ∅)))
    !! makeDominanceKey (nodeId second_at_7) (arrivalTimeUtc second_at_7)
  = Some (Fin (Rmin 50 50)).
Proof.
  destruct (isDominated_records_minimum second_at_7 (snd (isDominated first_at_7 ∅))
              50%R eq_refl) as [H _].
  apply H. rewrite isDominated_empty. apply lookup_insert_eq.
Defined.

(** ** The frontier sort *)

Section sorting.
Local Open Scope R_scope.

Lemma insert_by_cost_perm (x : State) (l : list State) :
  Permutation (insert_by_cost x l) (x :: l).
Proof.
  induction l as [| y l IH]; cbn [insert_by_cost]; [reflexivity |].
  destruct (ngt _ _); [reflexivity |].
  rewrite IH. apply perm_swap.
Qed.

Lemma sort_frontier_acc_perm (l : list State) :
  forall acc, Permutation (fold_left (fun acc x => insert_by_cost x acc) l acc) (acc ++ l).
Proof.
  induction l as [| x l IH]; intros acc; cbn [fold_left].
  - rewrite app_nil_r. reflexivity.
  - rewrite IH, insert_by_cost_perm. cbn [app]. apply Permutation_middle.
Qed.

Lemma cost_test (x y : State) (cx cy : R) :
  genCost x = Fin cx -> genCost y = Fin cy ->
  ngt (nsub (genCost y) (genCost x)) (Fin 0) = Rgtb cy cx.
Proof.
  intros -> ->. cbn. unfold Rgtb.
  destruct (Rgt_dec (cy - cx) 0), (Rgt_dec cy cx); try reflexivity; lra.
Qed.

Lemma insert_by_cost_sorted (x : State) (l : list State) :
  finite_cost x -> Forall finite_cost l ->
  Sorted cost_le l -> Sorted cost_le (insert_by_cost x l).
Proof.
  intros [cx Hx] Hfin Hs. induction l as [| y l IH]; cbn [insert_by_cost].
  - repeat constructor.
  - apply Forall_cons in Hfin as [[cy Hy] Hfin].
    rewrite (cost_test x y cx cy Hx Hy). unfold Rgtb.
    destruct (Rgt_dec cy cx) as [Hgt | Hle].
    + constructor; [exact Hs |]. constructor. unfold cost_le. rewrite Hx, Hy. lra.
    + apply Sorted_inv in Hs as [Hs Hhd].
      constructor; [apply IH; assumption |].
      destruct l as [| z l]; cbn [insert_by_cost].
      * constructor. unfold cost_le. rewrite Hx, Hy. lra.
      * apply Forall_cons in Hfin as [[cz Hz] _].
        rewrite (cost_test x z cx cz Hx Hz). unfold Rgtb.
        destruct (Rgt_dec cz cx).
        -- constructor. unfold cost_le. rewrite Hx, Hy. lra.
        -- constructor. apply HdRel_inv in Hhd. exact Hhd.
Qed.

Lemma insert_by_cost_last (x : State) (l : list State) (cx : R) :
  genCost x = Fin cx ->
  Forall (fun y => cost_le y x) l ->
  insert_by_cost x l = l ++ [x].
Proof.
  intros Hx Hall. induction l as [| y l IH]; cbn [insert_by_cost]; [reflexivity |].
  apply Forall_cons in Hall as [Hy Hall].
  unfold cost_le in Hy. rewrite Hx in Hy.
  destruct (genCost y) as [cy |] eqn:Hcy; [| destruct Hy].
  rewrite Hx. cbn [nsub ngt]. rewrite Rgtb_false by lra.
  rewrite IH by exact Hall. reflexivity.
Qed.

Lemma sort_frontier_acc_sorted (l : list State) :
  forall acc,
    Forall finite_cost acc -> Forall finite_cost l -> Sorted cost_le acc ->
    Sorted cost_le (fold_left (fun acc x => insert_by_cost x acc) l acc).
Proof.
  induction l as [| x l IH]; intros acc Hacc Hl Hs; cbn [fold_left]; [exact Hs |].
  apply Forall_cons in Hl as [Hx Hl]. apply IH.
  - eapply Permutation_Forall; [symmetry; apply insert_by_cost_perm |].
    constructor; assumption.
  - exact Hl.
  - apply insert_by_cost_sorted; assumption.
Qed.

Lemma cost_le_trans (a b c : State) : cost_le a b -> cost_le b c -> cost_le a c.
Proof.
  unfold cost_le. destruct (genCost a), (genCost b), (genCost c); try tauto. lra.
Qed.

Lemma sort_frontier_acc_fixed (l : list State) :
  forall acc,
    Forall finite_cost (acc ++ l) ->
    StronglySorted cost_le (acc ++ l) ->
    fold_left (fun acc x => insert_by_cost x acc) l acc = acc ++ l.
Proof.
  induction l as [| x l IH]; intros acc Hfin Hs; cbn [fold_left].
  - rewrite app_nil_r. reflexivity.
  - assert (Hx : finite_cost x).
    { rewrite Forall_app in Hfin. destruct Hfin as [_ Hfin].
      apply Forall_cons in Hfin as [Hx _]. exact Hx. }
    destruct Hx as [cx Hx].
    assert (Hbefore : Forall (fun y => cost_le y x) acc).
    { clear IH Hfin. induction acc as [| y acc IHacc]; [constructor |].
      cbn in Hs. apply StronglySorted_inv in Hs as [Hs Hy].
      constructor; [| apply IHacc; exact Hs].
      rewrite Forall_app in Hy. destruct Hy as [_ Hy].
      apply Forall_cons in Hy as [Hy _]. exact Hy. }
    rewrite (insert_by_cost_last x acc cx Hx Hbefore).
    rewrite IH; rewrite <- app_assoc; [reflexivity | exact Hfin | exact Hs].
Qed.

Lemma sort_frontier_perm (frontier : list State) :
  Permutation (sort_frontier frontier) frontier.
Proof. unfold sort_frontier. rewrite sort_frontier_acc_perm. reflexivity. Qed.

(** X19.  The frontier sort returns a permutation of the frontier; when
    every cost is finite the result is in non-decreasing cost order, and a
    frontier that is already in order is returned as it is (equal costs keep
    their relative order). *)
Theorem sort_frontier_sorts (frontier : list State) :
  Permutation (sort_frontier frontier) frontier
  /\ (Forall finite_cost frontier -> Sorted cost_le (sort_frontier frontier))
  /\ (Forall finite_cost frontier -> StronglySorted cost_le frontier ->
      sort_frontier frontier = frontier).
Proof.
  unfold sort_frontier. split; [| split].
  - rewrite sort_frontier_acc_perm. reflexivity.
  - intros Hfin. apply sort_frontier_acc_sorted; [constructor | exact Hfin | constructor].
  - intros Hfin Hs. apply (sort_frontier_acc_fixed frontier []); assumption.
Qed.

End sorting.

(** ** Termination of the search *)

Section loop_counts.

Variable clock : Clock.
Variable graph : GraphT.
Variable destSpec : PlaceSpec.
Variable params : Params.

Let maxE := default 100000%Z (maxExpansions params).

(** What one iteration does to the expansion counter. *)
Lemma iteration_counts (startTime : Z) (ls : LoopState) :
  match iteration clock graph destSpec params startTime ls with
  | Throw _ => True
  | Ret (inl r) =>
      expansions r = ls_expansions ls
      \/ (expansions r = S (ls_expansions ls) /\ (Z.of_nat (ls_expansions ls) <= maxE)%Z)
  | Ret (inr ls') =>
      ls_expansions ls' = S (ls_expansions ls)
      /\ (Z.of_nat (ls_expansions ls) <= maxE)%Z
  end.
Proof.
  unfold iteration. fold maxE.
  destruct (_ >? _)%Z; [left; reflexivity |].
  destruct (Z.gtb_spec (Z.of_nat (ls_expansions ls)) maxE) as [Hgt | Hle];
    [left; reflexivity |].
  destruct (head (sort_frontier (ls_frontier ls))) as [state |]; cbn [deref bind];
    [| exact I].
  destruct (isDestination state destSpec) as [[|] | e]; cbn [bind]; [| | exact I].
  - destruct (match ls_bestCost ls with
              | Some b => if nlt (genCost state) b
                          then (genCost state, Some state) else (b, ls_bestState ls)
              | None => (genCost state, Some state)
              end) as [bc bs].
    destruct (tail (sort_frontier (ls_frontier ls))) as [| f0 rest];
      [split; [reflexivity | exact Hle] |].
    destruct (head (destNodes destSpec)) as [d0 |]; cbn [deref bind]; [| exact I].
    destruct (estimateLowerBound _ _ params) as [lb | e]; cbn [bind]; [| exact I].
    destruct (nge _ _).
    + right. split; [reflexivity | exact Hle].
    + split; [reflexivity | exact Hle].
  - destruct (for_of _ _ _) as [[dm fr] | e]; cbn [bind]; [| exact I].
    split; [reflexivity | exact Hle].
Qed.

Lemma main_loop_returns (startTime : Z) :
  forall (fuel : nat) (ls : LoopState),
    (1 <= fuel)%nat ->
    (maxE + 2 <= Z.of_nat fuel + Z.of_nat (ls_expansions ls))%Z ->
    exists res, main_loop clock graph destSpec params fuel startTime ls = Some res.
Proof.
  induction fuel as [| fuel IH]; intros ls Hf Hb; [lia |].
  cbn [main_loop]. destruct (ls_frontier ls) as [| s0 rest]; [eauto |].
  pose proof (iteration_counts startTime ls) as Hc.
  destruct (iteration clock graph destSpec params startTime ls) as [[r | ls'] | e];
    [eauto | | eauto].
  destruct Hc as [Hs Hle]. apply IH; rewrite ?Hs; lia.
Qed.

Lemma main_loop_expansions (startTime : Z) :
  forall (fuel : nat) (ls : LoopState) (r : SearchResult),
    main_loop clock graph destSpec params fuel startTime ls = Some (Ret r) ->
    (Z.of_nat (expansions r) <= Z.max (Z.of_nat (ls_expansions ls)) (maxE + 1))%Z.
Proof.
  induction fuel as [| fuel IH]; intros ls r Hr; cbn [main_loop] in Hr.
  - destruct (ls_frontier ls); [| discriminate]. injection Hr as <-. cbn. lia.
  - destruct (ls_frontier ls) as [| s0 rest]; [injection Hr as <-; cbn; lia |].
    pose proof (iteration_counts startTime ls) as Hc.
    destruct (iteration clock graph destSpec params startTime ls) as [[r' | ls'] | e];
      [| | discriminate].
    + injection Hr as <-. destruct Hc as [-> | [-> Hle]]; lia.
    + destruct Hc as [Hs Hle]. apply IH in Hr. rewrite Hs in Hr. lia.
Qed.

End loop_counts.

Section search_bounds.

Variable clock : Clock.
Variable random : nat -> Z.
Variable graph : GraphT.
Variable originSpec destSpec : PlaceSpec.
Variable params : Params.

(** X20.  The search ends within [maxExpansions + 2] passes of its loop, and
    the number of expansions it reports is at most [maxExpansions + 1]. *)
Theorem search_stops_within_budget (fuel t0 : nat) :
  (Z.max 1 (default 100000 (maxExpansions params) + 2) <= Z.of_nat fuel)%Z ->
  (exists res,
      search_from clock random graph originSpec destSpec params fuel t0 = Some res)
  /\ (forall r,
         search_from clock random graph originSpec destSpec params fuel t0 = Some (Ret r) ->
         (Z.of_nat (expansions r) <= Z.max 0 (default 100000 (maxExpansions params) + 1))%Z).
Proof.
  intros Hfuel. unfold search_from.
  destruct (fold_left _ _ _) as [[t r0] frontier]. split.
  - apply main_loop_returns; cbn [ls_expansions]; lia.
  - intros r Hr. apply main_loop_expansions in Hr. cbn [ls_expansions] in Hr. lia.
Qed.

End search_bounds.

Lemma search_stops_within_budget_witness :
  exists res,
    search_from ticking_clock (fun _ => 0%Z) (near_graph ticking_clock)
      (area_of [near_a]) (area_of [near_b]) budget_zero 2 6
    = Some res.
Proof.
  apply (search_stops_within_budget ticking_clock (fun _ => 0%Z)
           (near_graph ticking_clock) (area_of [near_a]) (area_of [near_b])
           budget_zero 2 6).
  cbn. lia.
Defined.

(** ** What the search can return *)

Lemma search_from_OK_budget_zero (random : nat -> Z) (fuel : nat) :
  search_from ticking_clock random
    {| nodes := [far_u; far_d]; adj := empty_entries [far_u; far_d] |}
    (area_of [far_u; far_d]) (area_of [far_u]) budget_zero (S fuel) 0
  = Some (Ret {| search_status := OK;
                 best_itinerary :=
                   Some (createState (INum 1) (ticking_clock 1) (Fin 0) (Fin 0) []);
                 expansions := 1 |}).
Proof.
  pose proof (search_returns_OK_with_budget_zero random fuel) as H.
  unfold searchItinerariesDoorToDoor in H. rewrite buildGraph_far in H. exact H.
Qed.

Section seeding.

Variable clock : Clock.
Variable random : nat -> Z.

Lemma seed_step (orig : Node) (t r : nat) (frontier : list State) :
  exists r' s,
    seed clock random orig (t, r, frontier) = (S t, r', frontier ++ [s])
    /\ seeded s
    /\ arrivalTimeUtc s = clock t
    /\ (forall z, id orig = INum z -> nodeId s = INum z /\ r' = r)
    /\ (is_nullish (id orig) = true -> nodeId s = INum (- random r) /\ r' = S r).
Proof.
  unfold seed. destruct (id orig) as [| | z]; cbn [is_nullish];
    eexists _, _; (split; [reflexivity |]);
    (split; [unfold seeded; cbn; repeat split; eauto |]);
    (split; [reflexivity |]); split; intros; try discriminate; auto.
Qed.

Lemma seeds_fold (origins : list Node) :
  forall (t r : nat) (frontier : list State),
    exists r' new,
      fold_left (fun s orig => seed clock random orig s) origins (t, r, frontier)
      = ((t + length origins)%nat, r', frontier ++ new)
      /\ Forall seeded new
      /\ length new = length origins
      /\ (Forall (fun n => exists z, id n = INum z) origins ->
          map nodeId new = map id origins /\ r' = r).
Proof.
  induction origins as [| orig origins IH]; intros t r frontier.
  - exists r, []. cbn. rewrite app_nil_r, Nat.add_0_r. repeat split; constructor.
  - cbn [fold_left].
    destruct (seed_step orig t r frontier) as (r1 & s & Hs & Hseeded & _ & Hnum & _).
    rewrite Hs.
    destruct (IH (S t) r1 (frontier ++ [s])) as (r' & new & Hrun & Hall & Hlen & Hids).
    exists r', (s :: new). rewrite Hrun. split.
    + cbn [length]. rewrite <- app_assoc. cbn [app].
      replace (S t + length origins)%nat with (t + S (length origins))%nat by lia.
      reflexivity.
    + split; [constructor; assumption |]. split; [cbn; lia |].
      intros Hp. apply Forall_cons in Hp as [[z Hz] Hp].
      destruct (Hnum z Hz) as [Hn ->]. destruct (Hids Hp) as [Hm ->].
      split; [| reflexivity]. cbn [map]. rewrite Hn, Hz, Hm. reflexivity.
Qed.

End seeding.

Section loop_invariant.

Variable clock : Clock.
Variable graph : GraphT.
Variable destSpec : PlaceSpec.
Variable params : Params.

Let loop_inv := loop_inv destSpec.
Let result_shape := result_shape destSpec.

Lemma iteration_keeps_inv (startTime : Z) (ls : LoopState) :
  loop_inv ls ->
  match iteration clock graph destSpec params startTime ls with
  | Throw _ => True
  | Ret (inl r) => result_shape r
  | Ret (inr ls') => loop_inv ls'
  end.
Proof.
  intros (Hfr & Hbest & Hcost).
  assert (Hexh : result_shape {| search_status := TIME_BUDGET_EXHAUSTED;
                                 best_itinerary := ls_bestState ls;
                                 expansions := ls_expansions ls |}).
  { split; [| split]; cbn; try discriminate.
    exact Hbest. }
  assert (Hsorted : Forall seeded (sort_frontier (ls_frontier ls))).
  { eapply Permutation_Forall; [| exact Hfr].
    symmetry. apply sort_frontier_perm. }
  unfold iteration.
  destruct (_ >? _)%Z; [exact Hexh |].
  destruct (_ >? _)%Z; [exact Hexh |].
  destruct (sort_frontier (ls_frontier ls)) as [| state rest]; cbn [head deref bind tail];
    [exact I |].
  apply Forall_cons in Hsorted as [Hstate Hrest].
  destruct (isDestination state destSpec) as [[|] | e] eqn:Hdest; cbn [bind]; [| | exact I].
  - assert (Hnew : exists bc bs,
               match ls_bestCost ls with
               | Some b => if nlt (genCost state) b
                           then (genCost state, Some state) else (b, ls_bestState ls)
               | None => (genCost state, Some state)
               end = (bc, bs)
               /\ is_Some bs
               /\ forall s, bs = Some s -> seeded s /\ isDestination s destSpec = Ret true).
    { destruct (ls_bestCost ls) as [b |] eqn:Hb.
      - destruct (nlt (genCost state) b).
        + eexists _, _. split; [reflexivity |]. split; [eauto |].
          intros s [= <-]. auto.
        + eexists _, _. split; [reflexivity |]. split; [apply Hcost; eauto |].
          exact Hbest.
      - eexists _, _. split; [reflexivity |]. split; [eauto |].
        intros s [= <-]. auto. }
    destruct Hnew as (bc & bs & -> & Hsome & Hbs).
    destruct rest as [| f0 rest'].
    + split; [constructor |]. split; [exact Hbs | intros _; exact Hsome].
    + destruct (head (destNodes destSpec)) as [d0 |]; cbn [deref bind]; [| exact I].
      destruct (estimateLowerBound _ _ params) as [lb | e]; cbn [bind]; [| exact I].
      destruct (nge _ _).
      * split; [| split]; cbn; try discriminate; [| intros _; exact Hsome].
        exact Hbs.
      * split; [exact Hrest |]. split; [exact Hbs | intros _; exact Hsome].
  - destruct (adj graph !! nodeId state) as [[| leg legs] |];
      unfold default, from_option, Datatypes.id; cbn [for_of bind].
    + split; [exact Hrest |]. split; assumption.
    + destruct Hstate as (_ & _ & _ & Hg & Ho & _).
      rewrite (expand_leg_without_origin _ _ _ _ _ _ _ Hg Ho). exact I.
    + split; [exact Hrest |]. split; assumption.
Qed.

Lemma main_loop_shape (startTime : Z) :
  forall (fuel : nat) (ls : LoopState) (r : SearchResult),
    loop_inv ls ->
    main_loop clock graph destSpec params fuel startTime ls = Some (Ret r) ->
    result_shape r.
Proof.
  assert (Hnone : forall n, result_shape {| search_status := NO_FEASIBLE_ROUTE;
                                            best_itinerary := None;
                                            expansions := n |}).
  { intros n. split; [| split]; cbn; try discriminate; auto. }
  induction fuel as [| fuel IH]; intros ls r Hinv Hr; cbn [main_loop] in Hr.
  - destruct (ls_frontier ls); [| discriminate]. injection Hr as <-. apply Hnone.
  - destruct (ls_frontier ls) as [| s0 rest] eqn:Hf; [injection Hr as <-; apply Hnone |].
    pose proof (iteration_keeps_inv startTime ls Hinv) as Hstep.
    destruct (iteration clock graph destSpec params startTime ls) as [[r' | ls'] | e];
      [| | discriminate].
    + injection Hr as <-. exact Hstep.
    + eapply IH; eassumption.
Qed.

End loop_invariant.

Section search_shape.

Variable clock : Clock.
Variable random : nat -> Z.
Variable graph : GraphT.
Variable originSpec destSpec : PlaceSpec.
Variable params : Params.

Lemma search_from_shape (fuel t0 : nat) (r : SearchResult) :
  search_from clock random graph originSpec destSpec params fuel t0 = Some (Ret r) ->
  result_shape destSpec r.
Proof.
  unfold search_from.
  destruct (seeds_fold clock random (spec_nodes originSpec) (S t0) 0 [])
    as (r' & new & Hrun & Hall & _).
  rewrite Hrun. intros Hr. eapply main_loop_shape; [| exact Hr].
  split; [exact Hall |]. split; cbn; [discriminate | intros [x Hx]; discriminate].
Qed.

(** X21.  Whatever the graph, an itinerary the search returns is a seed
    state: it has no leg and cost 0, and it satisfies the destination test.
    A result OK carries an itinerary; NO_FEASIBLE_ROUTE carries none. *)
Theorem search_returns_only_seed_states (fuel t0 : nat) (r : SearchResult) :
  search_from clock random graph originSpec destSpec params fuel t0 = Some (Ret r) ->
  (forall s, best_itinerary r = Some s ->
             path s = [] /\ genCost s = Fin 0 /\ isDestination s destSpec = Ret true)
  /\ (search_status r = OK -> is_Some (best_itinerary r))
  /\ (search_status r = NO_FEASIBLE_ROUTE -> best_itinerary r = None).
Proof.
  intros Hr. destruct (search_from_shape fuel t0 r Hr) as (Hbest & Hok & Hno).
  split; [| split; assumption].
  intros s Hs. destruct (Hbest s Hs) as [(Hg & _ & Hp & _) Hd]. auto.
Qed.

(** X22.  The seeding loop makes one state per origin node, in order, each a
    seed state read at the next clock tick; persisted origin nodes keep
    their ids and draw no random number. *)
Theorem seeding_one_state_per_origin (origins : list Node) (t : nat) :
  exists r' frontier,
    fold_left (fun s orig => seed clock random orig s) origins (t, O, [])
    = ((t + length origins)%nat, r', frontier)
    /\ length frontier = length origins
    /\ Forall seeded frontier
    /\ (Forall (fun n => exists z, id n = INum z) origins ->
        map nodeId frontier = map id origins /\ r' = O).
Proof.
  destruct (seeds_fold clock random origins t 0 []) as (r' & new & Hrun & Hall & Hlen & Hids).
  exists r', new. auto.
Qed.

End search_shape.

Lemma search_returns_only_seed_states_witness :
  exists r s,
    search_from ticking_clock (fun _ => 0%Z)
      {| nodes := [far_u; far_d]; adj := empty_entries [far_u; far_d] |}
      (area_of [far_u; far_d]) (area_of [far_u]) budget_zero 1 0 = Some (Ret r)
    /\ best_itinerary r = Some s /\ path s = [] /\ genCost s = Fin 0.
Proof.
  eexists _, _.
  pose proof (search_from_OK_budget_zero (fun _ => 0%Z) 0) as Hrun.
  split; [exact Hrun |]. split; [reflexivity |].
  destruct (search_returns_only_seed_states ticking_clock (fun _ => 0%Z) _ _ _ _ 1 0 _ Hrun)
    as [H _].
  destruct (H _ eq_refl) as (Hp & Hg & _). split; assumption.
Defined.

(** ** The provider cache *)

Section key_order.

Lemma ltb_lt (x y : string) : String.ltb x y = true <-> String_as_OT.lt x y.
Proof.
  unfold String.ltb. rewrite <- String_as_OT.cmp_lt. unfold String_as_OT.cmp.
  destruct (String.compare x y); split; intros H; try reflexivity; discriminate.
Qed.

Lemma ltb_trans (x y z : string) :
  String.ltb x y = true -> String.ltb y z = true -> String.ltb x z = true.
Proof. rewrite !ltb_lt. apply String_as_OT.lt_trans. Qed.

Lemma ltb_asym (x y : string) : String.ltb x y = true -> String.ltb y x = false.
Proof.
  unfold String.ltb. rewrite (String.compare_antisym x y).
  destruct (String.compare y x); cbn; intros H; try reflexivity; discriminate.
Qed.

Lemma ltb_total (x y : string) :
  x = y \/ String.ltb x y = true \/ String.ltb y x = true.
Proof.
  unfold String.ltb. rewrite (String.compare_antisym x y).
  destruct (String.compare y x) eqn:Hc; cbn; auto.
  left. symmetry. apply String.compare_eq_iff. exact Hc.
Qed.

Lemma insert_key_comm (x y : string) (acc : list string) :
  insert_key x (insert_key y acc) = insert_key y (insert_key x acc).
Proof.
  destruct (ltb_total x y) as [-> | Hxy]; [reflexivity |].
  induction acc as [| z acc IH]; cbn [insert_key].
  - destruct Hxy as [H | H]; rewrite H, (ltb_asym _ _ H); reflexivity.
  - destruct (String.ltb y z) eqn:Hyz, (String.ltb x z) eqn:Hxz; cbn [insert_key];
      rewrite ?Hyz, ?Hxz.
    + destruct Hxy as [H | H]; rewrite H, (ltb_asym _ _ H), ?Hyz, ?Hxz; reflexivity.
    + assert (Hxy' : String.ltb x y = false).
      { destruct (String.ltb x y) eqn:E; [| reflexivity].
        rewrite (ltb_trans _ _ _ E Hyz) in Hxz. discriminate. }
      rewrite Hxy'. reflexivity.
    + assert (Hyx' : String.ltb y x = false).
      { destruct (String.ltb y x) eqn:E; [| reflexivity].
        rewrite (ltb_trans _ _ _ E Hxz) in Hyz. discriminate. }
      rewrite Hyx'. reflexivity.
    + rewrite IH. reflexivity.
Qed.

Lemma sort_keys_acc_perm (l l' : list string) :
  Permutation l l' ->
  forall acc,
    fold_left (fun acc k => insert_key k acc) l acc
    = fold_left (fun acc k => insert_key k acc) l' acc.
Proof.
  induction 1 as [| x l l' _ IH | x y l | l l' l'' _ IH1 _ IH2]; intros acc;
    cbn [fold_left].
  - reflexivity.
  - apply IH.
  - rewrite insert_key_comm. reflexivity.
  - rewrite IH1. apply IH2.
Qed.

Lemma sort_keys_perm (l l' : list string) :
  Permutation l l' -> sort_keys l = sort_keys l'.
Proof. intros H. unfold sort_keys. apply sort_keys_acc_perm. exact H. Qed.

Lemma omap_pointwise {A B : Type} (f g : A -> option B) (l : list A) :
  (forall x, f x = g x) -> omap f l = omap g l.
Proof.
  intros H. induction l as [| x l IH]; [reflexivity |].
  cbn [omap list_omap]. rewrite (H x), IH. reflexivity.
Qed.

Lemma stringify_object (keys : list string) (fields : list (string * json)) :
  stringify (Some keys) (JObject fields)
  = ("{" ++ join ","
       (omap (fun k =>
                option_map (fun v => quote k ++ ":" ++ stringify (Some keys) v)
                           (lookup_field k fields))
             keys) ++ "}")%string.
Proof.
  cbn [stringify]. f_equal. f_equal. f_equal.
  apply omap_pointwise. intros k. revert k.
  assert (Hm : forall k,
             (fix find (l : list (string * json)) : option string :=
                match l with
                | [] => None
                | (k', v') :: l' =>
                    if String.eqb k k' then
                      Some (quote k ++ ":" ++ stringify (Some keys) v')%string
                    else find l'
                end) fields
             = option_map (fun v => quote k ++ ":" ++ stringify (Some keys) v)%string
                          (lookup_field k fields)).
  { intros k. unfold lookup_field. induction fields as [| [k' v'] fs IH]; [reflexivity |].
    cbn [List.find fst]. destruct (String.eqb k k'); [reflexivity | exact IH]. }
  exact Hm.
Qed.

Lemma lookup_field_perm (k : string) (f f' : list (string * json)) :
  Permutation f f' -> NoDup (map fst f) -> lookup_field k f = lookup_field k f'.
Proof.
  unfold lookup_field.
  induction 1 as [| [k1 v1] l l' Hp IH | [k1 v1] [k2 v2] l | l l' l'' Hp1 IH1 Hp2 IH2];
    intros Hnd.
  - reflexivity.
  - cbn [List.find fst]. destruct (String.eqb k k1); [reflexivity |].
    apply IH. cbn in Hnd. apply NoDup_cons in Hnd as [_ Hnd]. exact Hnd.
  - cbn [List.find fst]. cbn in Hnd.
    apply NoDup_cons in Hnd as [Hk2 _].
    destruct (String.eqb_spec k k2) as [E2 | H2]; [| reflexivity].
    destruct (String.eqb_spec k k1) as [E1 | H1]; [| reflexivity].
    exfalso. apply Hk2. apply elem_of_cons. left. congruence.
  - rewrite IH1 by exact Hnd. apply IH2.
    assert (Hm : map fst l ≡ₚ map fst l') by (apply Permutation_map; exact Hp1).
    rewrite <- Hm. exact Hnd.
Qed.

End key_order.

Section hash_invariance.

Variable sha256_hex : string -> string.

(** X23.  [canonicalHash] does not depend on the order in which the
    top-level keys of the parameters object were inserted. *)
Theorem canonicalHash_key_order (obj obj' : list (string * json)) :
  Permutation obj obj' ->
  NoDup (map fst obj) ->
  canonicalHash sha256_hex obj = canonicalHash sha256_hex obj'.
Proof.
  intros Hp Hnd. unfold canonicalHash. f_equal.
  assert (Hk : sort_keys (object_keys obj) = sort_keys (object_keys obj')).
  { apply sort_keys_perm. unfold object_keys. apply Permutation_map. exact Hp. }
  rewrite <- Hk. rewrite !stringify_object. f_equal. f_equal. f_equal.
  apply omap_pointwise. intros k.
  rewrite (lookup_field_perm k obj obj' Hp Hnd). reflexivity.
Qed.

End hash_invariance.

Section cache_round_trip.

Variable sha256_hex : string -> string.
Variable json_parse : string -> option json.



Lemma touch_key (now rid : Z) (p e h : string) (r : CacheRow) :
  same_key p e h
    (if Z.eqb (row_id r) rid then
       {| row_id := row_id r; provider := provider r; endpoint := endpoint r;
          canonical_params_hash := canonical_params_hash r;
          canonical_params_json := canonical_params_json r;
          response_body_json := response_body_json r;
          created_at_utc := created_at_utc r;
          expires_at_utc := expires_at_utc r;
          last_used_at_utc := now;
          hit_count := (hit_count r + 1)%Z |}
     else r)
  = same_key p e h r.
Proof. destruct (Z.eqb (row_id r) rid); reflexivity. Qed.

Lemma db_touch_fault (db : Store) (now rid : Z) :
  fault (db_touch db now rid) = fault db.
Proof.
  unfold db_touch. destruct (fault db) eqn:E; [exact E | reflexivity].
Qed.

Lemma db_touch_existsb (db : Store) (now rid : Z) (p e h : string) :
  existsb (same_key p e h) (rows (db_touch db now rid))
  = existsb (same_key p e h) (rows db).
Proof.
  unfold db_touch. destruct (fault db); [reflexivity |]. cbn [rows].
  induction (rows db) as [| r l IH]; [reflexivity |].
  cbn [map existsb]. rewrite touch_key, IH. reflexivity.
Qed.

Lemma db_touch_next_id (db : Store) (now rid : Z) :
  next_id (rows (db_touch db now rid)) = next_id (rows db).
Proof.
  unfold db_touch. destruct (fault db); [reflexivity |]. cbn [rows].
  unfold next_id. f_equal. generalize 0%Z.
  induction (rows db) as [| r l IH]; intros m; [reflexivity |].
  cbn [map fold_left].
  replace (row_id (if Z.eqb (row_id r) rid then _ else r)) with (row_id r)
    by (destruct (Z.eqb (row_id r) rid); reflexivity).
  apply IH.
Qed.

(** What a read looks at in the row it finds. *)
Lemma db_touch_find (db : Store) (now rid : Z) (p e h : string) :
  fault db = None ->
  match find (same_key p e h) (rows db),
        find (same_key p e h) (rows (db_touch db now rid)) with
  | Some r, Some r' =>
      row_id r' = row_id r /\ expires_at_utc r' = expires_at_utc r
      /\ response_body_json r' = response_body_json r
  | None, None => True
  | _, _ => False
  end.
Proof.
  intros Hf. unfold db_touch. rewrite Hf. cbn [rows].
  induction (rows db) as [| r l IH]; [exact I |].
  cbn [map find]. rewrite touch_key.
  destruct (same_key p e h r); [| exact IH].
  destruct (Z.eqb (row_id r) rid); cbn; auto.
Qed.





(** X25.  The bookkeeping update of a read cannot be seen by later calls:
    after any read, every read and every write settles as it would have
    without it, and no row is added or removed. *)
Theorem apiCacheGet_bookkeeping_is_invisible (db : Store) (t0 t0' : Z) (p0 e0 : string)
    (params0 : list (string * json)) :
  let db' := snd (apiCacheGet sha256_hex json_parse db t0 t0' p0 e0 params0) in
  (forall t t' p e params,
      fst (apiCacheGet sha256_hex json_parse db' t t' p e params)
      = fst (apiCacheGet sha256_hex json_parse db t t' p e params))
  /\ (forall now p e params response ttlHours,
         fst (apiCachePut sha256_hex db' now p e params response ttlHours)
         = fst (apiCachePut sha256_hex db now p e params response ttlHours))
  /\ length (rows db') = length (rows db).
Proof.
  intros db'.
  assert (Hdb : db' = db \/ exists rid, db' = db_touch db t0' rid).
  { subst db'. unfold apiCacheGet.
    destruct (db_get db p0 e0 (canonicalHash sha256_hex params0))
      as [[err | [row |]] |]; cbn [snd]; auto.
    right. exists (row_id row).
    destruct (t0 <? expires_at_utc row)%Z; [| reflexivity].
    destruct (json_parse (response_body_json row)); reflexivity. }
  destruct Hdb as [-> | [rid ->]]; [auto |].
  destruct (fault db) as [err |] eqn:Hf.
  { unfold db_touch. rewrite Hf. auto. }
  split; [| split].
  - intros t t' p e params. unfold apiCacheGet, db_get.
    rewrite db_touch_fault, Hf.
    pose proof (db_touch_find db t0' rid p e (canonicalHash sha256_hex params) Hf) as H.
    destruct (find _ (rows db)) as [r |], (find _ (rows (db_touch db t0' rid))) as [r' |];
      try contradiction; [| reflexivity].
    destruct H as (_ & -> & ->).
    destruct (t <? expires_at_utc r)%Z; [| reflexivity].
    destruct (json_parse (response_body_json r)); reflexivity.
  - intros now p e params response ttlHours. unfold apiCachePut, db_insert.
    rewrite db_touch_fault, Hf. cbn [provider endpoint canonical_params_hash].
    rewrite db_touch_existsb, db_touch_next_id.
    destruct (existsb _ (rows db)); reflexivity.
  - unfold db_touch. rewrite Hf. cbn [rows]. apply length_map.
Qed.


End cache_round_trip.

(** ** Place normalization *)

Section geocoder.

Lemma fold_left_code_sum (l : list ascii) (a : Z) :
  fold_left (fun a c => (a + Z.of_nat (nat_of_ascii c))%Z) l a
  = (a + fold_right (fun c a => (Z.of_nat (nat_of_ascii c) + a)%Z) 0%Z l)%Z.
Proof.
  revert a. induction l as [| c l IH]; intros a; cbn [fold_left fold_right]; [lia |].
  rewrite IH. lia.
Qed.

Lemma geocodeAddressRaw_code_sum (s : string) :
  geocodeAddressRaw s
  = ((39 + IZR (code_sum s mod 100) * (1 / 1000))%R,
     (-86 - IZR (code_sum s mod 100) * (1 / 1000))%R).
Proof.
  unfold geocodeAddressRaw, code_sum. rewrite fold_left_code_sum, Z.add_0_l. reflexivity.
Qed.

Lemma code_sum_perm (s s' : string) :
  Permutation (list_ascii_of_string s) (list_ascii_of_string s') ->
  code_sum s = code_sum s'.
Proof.
  unfold code_sum. induction 1; cbn [fold_right]; lia.
Qed.

(** X27.  The synthetic geocoder puts every address on one of 100 points:
    the point depends only on the sum of the code units modulo 100, so that
    two addresses made of the same characters are at the same place; the
    latitude is between 39 and 39.099 and the longitude between -86.099 and
    -86. *)
Theorem geocodeAddressRaw_collisions (s s' : string) :
  ((code_sum s mod 100 = code_sum s' mod 100)%Z ->
   geocodeAddressRaw s = geocodeAddressRaw s')
  /\ (Permutation (list_ascii_of_string s) (list_ascii_of_string s') ->
      geocodeAddressRaw s = geocodeAddressRaw s')
  /\ (39 <= (geocodeAddressRaw s).1 <= 39099 / 1000)%R
  /\ (-86099 / 1000 <= (geocodeAddressRaw s).2 <= -86)%R.
Proof.
  rewrite !geocodeAddressRaw_code_sum. cbn [fst snd].
  assert (Hm : (0 <= code_sum s mod 100 <= 99)%Z).
  { pose proof (Z.mod_pos_bound (code_sum s) 100 ltac:(lia)). lia. }
  destruct Hm as [H0 H99]. apply IZR_le in H0, H99.
  split; [intros ->; reflexivity |].
  split; [intros Hp; rewrite (code_sum_perm s s' Hp); reflexivity |].
  split; lra.
Qed.

End geocoder.

Section normalizer.

Variable select_areas : string -> string + list Area.
Variable select_nodes : Z -> string + list NodeRow.

Lemma geocode_pair (s : string) :
  geocodeAddressRaw s = ((geocodeAddressRaw s).1, (geocodeAddressRaw s).2).
Proof. destruct (geocodeAddressRaw s); reflexivity. Qed.

Lemma hotel_fallback_settles (spec : string) :
  settles_well select_areas select_nodes
    (let '(lat, lon) := geocodeAddressRaw spec in
     Resolved {| p_isAddress := false; p_isArea := false; p_isHotelQuery := true;
                 address := None; area := None;
                 p_nodes := [createAddressNode spec lat lon] |}).
Proof.
  rewrite (geocode_pair spec). right. right. cbn. repeat split.
  left. split; [reflexivity |]. exists spec. reflexivity.
Qed.

Lemma normalizePlaceSpec_cases (specRaw : string) :
  settles_well select_areas select_nodes
    (normalizePlaceSpec select_areas select_nodes specRaw).
Proof.
  unfold normalizePlaceSpec, lookupAreaByName, lookupNodesInArea.
  set (spec := trim specRaw).
  destruct (startsWith spec "address:").
  { rewrite (geocode_pair (trim _)). left. repeat split. eexists. split; reflexivity. }
  destruct (startsWith (toLowerCase spec) "hotel").
  - pose proof (hotel_fallback_settles spec) as Hfb.
    destruct (indexOf "near" (split_ws spec)) as [i |]; [| exact Hfb].
    destruct (Nat.ltb i (length (split_ws spec) - 1)); [| exact Hfb].
    destruct (select_areas _) as [err | [| area0 rest]] eqn:Ha; [| exact Hfb |].
    + left. eauto.
    + destruct (select_nodes (a_id area0)) as [err | nodes] eqn:Hn.
      * right. eauto.
      * right. right. cbn. repeat split. right. eauto.
  - destruct (select_areas spec) as [err | [| area0 rest]] eqn:Ha.
    + left. eauto.
    + rewrite (geocode_pair spec). left. repeat split. eexists. split; reflexivity.
    + destruct (select_nodes (a_id area0)) as [err | nodes] eqn:Hn.
      * right. eauto.
      * right. left. cbn. repeat split. eauto.
Qed.

(** X28.  How [normalizePlaceSpec] settles.  A result has exactly one of the
    three flags.  An address result has one node, the synthetic node of its
    address, whose id is null; an area result has the nodes of its area as
    the store returned them; the nodes of a hotel query are one synthetic
    node, or the nodes of its area that are of kind hotel or have hotel in
    their name.  The promise is rejected only with the error of one of the
    two lookups. *)
Theorem normalizePlaceSpec_settles (specRaw : string) :
  match normalizePlaceSpec select_areas select_nodes specRaw with
  | Resolved p =>
      (p_isAddress p = true /\ p_isArea p = false /\ p_isHotelQuery p = false
       /\ area p = None
       /\ exists a, address p = Some a
                    /\ p_nodes p = [createAddressNode a (geocodeAddressRaw a).1
                                                      (geocodeAddressRaw a).2])
      \/ (p_isAddress p = false /\ p_isArea p = true /\ p_isHotelQuery p = false
          /\ address p = None
          /\ exists a, area p = Some a /\ select_nodes (a_id a) = inr (p_nodes p))
      \/ (p_isAddress p = false /\ p_isArea p = false /\ p_isHotelQuery p = true
          /\ address p = None
          /\ ((area p = None
               /\ exists a, p_nodes p = [createAddressNode a (geocodeAddressRaw a).1
                                                             (geocodeAddressRaw a).2])
              \/ exists a nodes,
                   area p = Some a /\ select_nodes (a_id a) = inr nodes
                   /\ p_nodes p
                      = List.filter
                          (fun n => String.eqb (kind n) NodeKind_HOTEL
                                    || test_hotel (n_name n)) nodes))
  | Rejected err =>
      (exists q, select_areas q = inl err) \/ (exists i, select_nodes i = inl err)
  | Uncaught => False
  end.
Proof. exact (normalizePlaceSpec_cases specRaw). Qed.

End normalizer.

Section address_destination.

Variable select_areas : string -> string + list Area.
Variable select_nodes : Z -> string + list NodeRow.
Variable clock : Clock.
Variable random : nat -> Z.
Variable graph : GraphT.
Variable originSpec : PlaceSpec.
Variable params : Params.

Lemma isDestination_address (p : Place) (s : State) :
  settles_well select_areas select_nodes (Resolved p) ->
  p_isAddress p = true ->
  isDestination s (to_spec p) = Ret (strict_eq (nodeId s) INull).
Proof.
  intros Hp Ha. cbn in Hp.
  destruct Hp as [(_ & _ & _ & _ & a & _ & Hn) | [(Hf & _) | (Hf & _)]];
    [| congruence | congruence].
  unfold isDestination, to_spec. cbn [isAddress spec_nodes]. rewrite Ha, Hn. reflexivity.
Qed.

(** X29.  A destination that [normalizePlaceSpec] resolved as an address is
    never reached: its only node has id null, every state the search can
    return is at a numeric node id, and the destination test is a strict
    equality.  Whatever the graph and the origin, a search that returns
    returns no itinerary, and never the status OK.  (The destination
    specification is an object of its own, as [normalizePlaceSpec] builds
    it, not the one given as origin.) *)
Theorem search_never_reaches_an_address (destRaw : string) (p : Place)
    (fuel t0 : nat) (r : SearchResult) :
  normalizePlaceSpec select_areas select_nodes destRaw = Resolved p ->
  p_isAddress p = true ->
  search_from clock random graph originSpec (to_spec p) params fuel t0 = Some (Ret r) ->
  best_itinerary r = None /\ search_status r <> OK.
Proof.
  intros Hn Ha Hr.
  pose proof (normalizePlaceSpec_cases select_areas select_nodes destRaw) as Hp.
  rewrite Hn in Hp.
  destruct (search_from_shape _ _ _ _ _ _ _ _ _ Hr) as (Hbest & Hok & _).
  assert (Hnone : best_itinerary r = None).
  { destruct (best_itinerary r) as [s |] eqn:Hs; [| reflexivity].
    destruct (Hbest s eq_refl) as [(_ & _ & _ & _ & _ & z & Hz) Hd].
    rewrite (isDestination_address p s Hp Ha), Hz in Hd. discriminate. }
  split; [exact Hnone |].
  intros Hstatus. destruct (Hok Hstatus) as [s Hs]. congruence.
Qed.

End address_destination.

(** ** Instances *)

Lemma leg_cost_not_below_partial_witness :
  exists c,
    newGenCost (computeLegGeneralizedCost (sample_partial 10 0 0) fast_flight no_params)
    = Fin c /\ (10 <= c)%R.
Proof.
  apply (leg_cost_not_below_partial no_params (sample_partial 10 0 0) fast_flight 10).
  - reflexivity.
  - cbn. lra.
  - cbn. lra.
  - cbn. lra.
  - cbn. lra.
  - cbn. lia.
Defined.

Lemma estimateLowerBound_symmetric_witness :
  exists lb : R,
    estimateLowerBound (Some (node_coords far_u)) (Some (node_coords far_d)) no_params
    = Ret (Fin lb)
    /\ estimateLowerBound (Some (node_coords far_d)) (Some (node_coords far_u)) no_params
       = Ret (Fin lb)
    /\ (0 <= lb)%R.
Proof.
  assert (H : (0 <= default 20 (timeValuePerHour no_params))%R) by (cbn; lra).
  destruct (estimateLowerBound_symmetric no_params far_u far_d H)
    as (lb & H1 & H2 & H0 & _).
  exists lb. auto.
Defined.



Lemma transfer_test_symmetric_witness :
  (transfer_pair ticking_clock 5 near_a near_b (O, empty_entries [near_a; near_b])
   = Ret (3%nat, <[id near_a := [] ++ pair_arcs ticking_clock 0 near_a near_b]>
                   (empty_entries [near_a; near_b]))
   /\ transfer_pair ticking_clock 5 near_b near_a (O, empty_entries [near_a; near_b])
      = Ret (3%nat, <[id near_b := [] ++ pair_arcs ticking_clock 0 near_b near_a]>
                      (empty_entries [near_a; near_b])))
  \/ (transfer_pair ticking_clock 5 near_a near_b (O, empty_entries [near_a; near_b])
      = Ret (O, empty_entries [near_a; near_b])
      /\ transfer_pair ticking_clock 5 near_b near_a (O, empty_entries [near_a; near_b])
         = Ret (O, empty_entries [near_a; near_b])).
Proof.
  apply (transfer_test_symmetric ticking_clock 5 near_a near_b 0 0
           (empty_entries [near_a; near_b]) [] []).
  - reflexivity.
  - reflexivity.
Defined.

Lemma canonicalHash_key_order_witness :
  canonicalHash plain_digest two_keys = canonicalHash plain_digest two_keys_swapped.
Proof.
  apply canonicalHash_key_order.
  - apply perm_swap.
  - apply NoDup_cons. split.
    + intros H. apply list_elem_of_singleton in H. discriminate.
    + apply NoDup_singleton.
Defined.



Lemma search_never_reaches_an_address_witness :
  exists r,
    search_from ticking_clock (fun _ => 0%Z)
      {| nodes := [far_u; far_d]; adj := empty_entries [far_u; far_d] |}
      (area_of [far_u]) (to_spec main_street) no_params 2 0 = Some (Ret r)
    /\ best_itinerary r = None /\ search_status r <> OK.
Proof.
  eexists. split; [reflexivity |].
  apply (search_never_reaches_an_address no_areas no_nodes ticking_clock (fun _ => 0%Z)
           {| nodes := [far_u; far_d]; adj := empty_entries [far_u; far_d] |}
           (area_of [far_u]) no_params "  address: 1 Main St " main_street 2 0).
  - reflexivity.
  - reflexivity.
  - reflexivity.
Defined.
